(** * Mission model of the USV dashboard (types/mission.ts)

    A shallow embedding of the waypoint / mission data model and of its four
    operations [createEmptyMission], [createWaypoint], [addWaypointToMission]
    and [missionToMavlinkFormat].

    JavaScript objects and arrays are reference values.  The operations are
    advertised as "pure" and "non mutating", which is only a meaningful
    statement when objects live in a store: every object literal and every
    array literal of the source allocates a fresh cell, and a spread copies
    fields (for objects) or references (for arrays).  The embedding therefore
    threads a heap through a small state-and-error monad.

    The second half of the file covers the callers of the mission model in
    the application: the planning handlers of [App] (in its current form and
    in its earlier array-of-positions form), the map clicks of [MapView],
    the sliding windows of the chart and of the trail, and
    [calculateWaterQuality]. *)

From Stdlib Require Import ZArith List Bool Lia.
From Stdlib Require Import Floats.PrimFloat.
From Stdlib Require Floats.FloatAxioms Floats.SpecFloat Floats.FloatOps.
From stdpp Require Import base option list strings pretty.

Local Open Scope Z_scope.
#[local] Set Warnings "-inexact-float".

(** ** Enumerations *)

(** [enum MavCmd] *)
Inductive MavCmd : Set :=
| MAV_CMD_NAV_WAYPOINT
| MAV_CMD_NAV_LOITER_UNLIM
| MAV_CMD_NAV_LOITER_TURNS
| MAV_CMD_NAV_LOITER_TIME
| MAV_CMD_NAV_RETURN_TO_LAUNCH.

(** The numeric value the enumeration member carries at run time. *)
Definition MavCmd_value (c : MavCmd) : Z :=
  match c with
  | MAV_CMD_NAV_WAYPOINT => 16
  | MAV_CMD_NAV_LOITER_UNLIM => 17
  | MAV_CMD_NAV_LOITER_TURNS => 18
  | MAV_CMD_NAV_LOITER_TIME => 19
  | MAV_CMD_NAV_RETURN_TO_LAUNCH => 20
  end.

(** [enum MavFrame] *)
Inductive MavFrame : Set :=
| MAV_FRAME_GLOBAL
| MAV_FRAME_GLOBAL_RELATIVE_ALT.

Definition MavFrame_value (f : MavFrame) : Z :=
  match f with
  | MAV_FRAME_GLOBAL => 0
  | MAV_FRAME_GLOBAL_RELATIVE_ALT => 3
  end.

(** ** Records *)

(** [interface Waypoint].  [seq] holds an array length or a caller-supplied
    index and is modelled as an integer (negative values are representable:
    the source does not check them).  The remaining numeric fields are
    measurements and are IEEE-754 doubles, as every JavaScript [number]. *)
Module Waypoint.
Record t : Set := mk {
  seq : Z;
  frame : MavFrame;
  command : MavCmd;
  current : bool;
  autocontinue : bool;
  param1 : float;
  param2 : float;
  param3 : float;
  param4 : float;
  x : float;
  y : float;
  z : float
}.
End Waypoint.

(** [interface MissionMetadata] *)
Module MissionMetadata.
Record t : Set := mk {
  name : string;
  createdAt : string;
  updatedAt : string
}.
End MissionMetadata.

(** Objects are referred to by their address in the heap. *)
Abbreviation loc := nat (only parsing).

(** [interface Mission], as the object is laid out at run time: the
    [waypoints] and [metadata] properties hold references to an array object
    and to a metadata object. *)
Module Mission.
Record t : Set := mk {
  waypoints : loc;
  currentWaypointIndex : Z;
  metadata : loc
}.
End Mission.

(** ** The heap *)

(** The four kinds of object the module creates.  An array of waypoints
    stores references to waypoint objects, not copies of them. *)
Inductive obj : Set :=
| OWaypoint (w : Waypoint.t)
| OArray (elems : list loc)
| OMetadata (md : MissionMetadata.t)
| OMission (m : Mission.t).

(** A heap is the sequence of the objects allocated so far; the address of
    an object is its position.  Nothing is ever freed. *)
Abbreviation heap := (list obj) (only parsing).

(** ** A state and error monad

    A computation takes the heap and either fails ([None]: the run-time
    [TypeError] of reading a property of something that is not the expected
    kind of object) or returns a value together with the new heap. *)
Definition M (A : Type) : Type := heap -> option (A * heap).

Definition ret {A : Type} (a : A) : M A := fun h => Some (a, h).

Definition bind {A B : Type} (m : M A) (k : A -> M B) : M B :=
  fun h => match m h with
           | Some (a, h') => k a h'
           | None => None
           end.

Notation "'let*' v ':=' m 'in' k" := (bind m (fun v => k))
  (at level 10, v name, m at level 100, k at level 200).

(** An object or array literal: the new object is placed at the end of the
    heap and its address is returned. *)
Definition alloc (o : obj) : M loc := fun h => Some (length h, h ++ [o]).

(** Property reads through a reference, one per kind of object. *)
Definition get_waypoint (l : loc) : M Waypoint.t :=
  fun h => match h !! l with Some (OWaypoint w) => Some (w, h) | _ => None end.

Definition get_array (l : loc) : M (list loc) :=
  fun h => match h !! l with Some (OArray a) => Some (a, h) | _ => None end.

Definition get_metadata (l : loc) : M MissionMetadata.t :=
  fun h => match h !! l with Some (OMetadata md) => Some (md, h) | _ => None end.

Definition get_mission (l : loc) : M Mission.t :=
  fun h => match h !! l with Some (OMission m) => Some (m, h) | _ => None end.

(** [Array.prototype.map]: the callback is applied to each element and its
    index, in ascending index order, and the results are collected in a new
    array. *)
Fixpoint map_from (callback : loc -> nat -> M loc) (idx : nat) (elems : list loc)
  : M (list loc) :=
  match elems with
  | [] => ret []
  | e :: rest =>
      let* r := callback e idx in
      let* rs := map_from callback (S idx) rest in
      ret (r :: rs)
  end.

Definition Array_map (arr : loc) (callback : loc -> nat -> M loc) : M loc :=
  let* elems := get_array arr in
  let* out := map_from callback 0%nat elems in
  alloc (OArray out).

(** ** The operations of types/mission.ts

    [new Date().toISOString()] reads the clock; the string it returns in a
    given call is the argument [now] of that call. *)

(** [createEmptyMission()] *)
Definition createEmptyMission (now : string) : M loc :=
  let* wps := alloc (OArray []) in
  let* md := alloc (OMetadata {| MissionMetadata.name := "USV Mission";
                                 MissionMetadata.createdAt := now;
                                 MissionMetadata.updatedAt := now |}) in
  alloc (OMission {| Mission.waypoints := wps;
                     Mission.currentWaypointIndex := 0;
                     Mission.metadata := md |}).

(** The object literal returned by [createWaypoint]. *)
Definition waypoint_literal (seq : Z) (lat lon : float) : Waypoint.t :=
  {| Waypoint.seq := seq;
     Waypoint.frame := MAV_FRAME_GLOBAL_RELATIVE_ALT;
     Waypoint.command := MAV_CMD_NAV_WAYPOINT;
     Waypoint.current := false;
     Waypoint.autocontinue := true;
     Waypoint.param1 := 0;
     Waypoint.param2 := 2;
     Waypoint.param3 := 0;
     Waypoint.param4 := 0;
     Waypoint.x := lat;
     Waypoint.y := lon;
     Waypoint.z := 0 |}.

(** [createWaypoint(seq, lat, lon)] *)
Definition createWaypoint (seq : Z) (lat lon : float) : M loc :=
  alloc (OWaypoint (waypoint_literal seq lat lon)).

(** [addWaypointToMission(mission, lat, lon)].  [{...mission, ...}] copies
    the properties of the mission object into a new object,
    [[...mission.waypoints, newWaypoint]] copies the references held by the
    old array into a new array, and [{...mission.metadata, ...}] copies the
    metadata into a new object.  The waypoint objects themselves are shared
    between the old and the new array. *)
Definition addWaypointToMission (now : string) (mission : loc) (lat lon : float)
  : M loc :=
  (* const seq = mission.waypoints.length *)
  let* m := get_mission mission in
  let* elems := get_array (Mission.waypoints m) in
  let seq := Z.of_nat (length elems) in
  let* newWaypoint := createWaypoint seq lat lon in
  (* ...mission *)
  let* m := get_mission mission in
  (* waypoints: [...mission.waypoints, newWaypoint] *)
  let* elems := get_array (Mission.waypoints m) in
  let* wps := alloc (OArray (elems ++ [newWaypoint])) in
  (* metadata: { ...mission.metadata, updatedAt: now } *)
  let* md := get_metadata (Mission.metadata m) in
  let* md' := alloc (OMetadata {| MissionMetadata.name := MissionMetadata.name md;
                                  MissionMetadata.createdAt := MissionMetadata.createdAt md;
                                  MissionMetadata.updatedAt := now |}) in
  alloc (OMission {| Mission.waypoints := wps;
                     Mission.currentWaypointIndex := Mission.currentWaypointIndex m;
                     Mission.metadata := md' |}).

(** [{...wp, current: c}] *)
Definition with_current (wp : Waypoint.t) (c : bool) : Waypoint.t :=
  {| Waypoint.seq := Waypoint.seq wp;
     Waypoint.frame := Waypoint.frame wp;
     Waypoint.command := Waypoint.command wp;
     Waypoint.current := c;
     Waypoint.autocontinue := Waypoint.autocontinue wp;
     Waypoint.param1 := Waypoint.param1 wp;
     Waypoint.param2 := Waypoint.param2 wp;
     Waypoint.param3 := Waypoint.param3 wp;
     Waypoint.param4 := Waypoint.param4 wp;
     Waypoint.x := Waypoint.x wp;
     Waypoint.y := Waypoint.y wp;
     Waypoint.z := Waypoint.z wp |}.

(** The arrow function passed to [map] in [missionToMavlinkFormat]. *)
Definition mark_current (wp : loc) (idx : nat) : M loc :=
  let* w := get_waypoint wp in
  alloc (OWaypoint (with_current w (Nat.eqb idx 0))).

(** [missionToMavlinkFormat(mission)] *)
Definition missionToMavlinkFormat (mission : loc) : M loc :=
  let* m := get_mission mission in
  Array_map (Mission.waypoints m) mark_current.

(** ** Sequences of calls *)

(** One click on the map: the clock reading of the call and the coordinates. *)
Definition add_call : Set := string * float * float.

Definition call_lat (c : add_call) : float := let '(_, lat, _) := c in lat.
Definition call_lon (c : add_call) : float := let '(_, _, lon) := c in lon.

(** [M1 = addWaypointToMission(M0, ...); M2 = addWaypointToMission(M1, ...); ...] *)
Fixpoint add_all (calls : list add_call) (mission : loc) : M loc :=
  match calls with
  | [] => ret mission
  | (now, lat, lon) :: rest =>
      let* mission' := addWaypointToMission now mission lat lon in
      add_all rest mission'
  end.

(** [createEmptyMission()] followed by the calls of [calls], in order. *)
Definition build (now0 : string) (calls : list add_call) : M loc :=
  let* m0 := createEmptyMission now0 in
  add_all calls m0.

(** The missions the frontend can hold: the state starts as
    [createEmptyMission()] and is only ever replaced by the result of
    [addWaypointToMission] on a mission it held; in between, other code may
    allocate (the module contains no assignment to a property of an existing
    object, so allocation is the only way the heap changes). *)
Inductive reachable : heap -> loc -> Prop :=
| reach_empty h now m h' :
    createEmptyMission now h = Some (m, h') ->
    reachable h' m
| reach_add h m now lat lon m' h' :
    reachable h m ->
    addWaypointToMission now m lat lon h = Some (m', h') ->
    reachable h' m'
| reach_grow h m h' :
    reachable h m ->
    h `prefix_of` h' ->
    reachable h' m.

(** ** Reading values back from the heap *)

(** What a deep comparison of two missions looks at: the waypoints behind the
    references of the array, and the metadata behind its reference. *)
Module MissionView.
Record t : Set := mk {
  waypoints : list Waypoint.t;
  currentWaypointIndex : Z;
  metadata : MissionMetadata.t
}.
End MissionView.

Definition read_waypoint (h : heap) (l : loc) : option Waypoint.t :=
  match h !! l with Some (OWaypoint w) => Some w | _ => None end.

Definition read_metadata (h : heap) (l : loc) : option MissionMetadata.t :=
  match h !! l with Some (OMetadata md) => Some md | _ => None end.

(** The contents of an array of waypoints, in index order. *)
Definition read_array (h : heap) (l : loc) : option (list Waypoint.t) :=
  match h !! l with
  | Some (OArray elems) => mapM (read_waypoint h) elems
  | _ => None
  end.

Definition read_mission (h : heap) (l : loc) : option MissionView.t :=
  match h !! l with
  | Some (OMission m) =>
      match read_array h (Mission.waypoints m), read_metadata h (Mission.metadata m) with
      | Some wps, Some md =>
          Some {| MissionView.waypoints := wps;
                  MissionView.currentWaypointIndex := Mission.currentWaypointIndex m;
                  MissionView.metadata := md |}
      | _, _ => None
      end
  | _ => None
  end.

(** A reference is a well-formed mission when the object graph below it has
    the shape the TypeScript types promise. *)
Definition wf_mission (h : heap) (l : loc) : Prop := is_Some (read_mission h l).

(** ** Vocabulary of the properties *)

(** The data-model invariant: the [seq] values are 0, 1, ..., N-1 in array
    order. *)
Definition seq_contiguous (wps : list Waypoint.t) : Prop :=
  Waypoint.seq <$> wps = Z.of_nat <$> List.seq 0 (length wps).

(** Two waypoints agree on every field other than [current]. *)
Definition same_but_current (w w' : Waypoint.t) : Prop :=
  Waypoint.seq w = Waypoint.seq w' /\
  Waypoint.frame w = Waypoint.frame w' /\
  Waypoint.command w = Waypoint.command w' /\
  Waypoint.autocontinue w = Waypoint.autocontinue w' /\
  Waypoint.param1 w = Waypoint.param1 w' /\
  Waypoint.param2 w = Waypoint.param2 w' /\
  Waypoint.param3 w = Waypoint.param3 w' /\
  Waypoint.param4 w = Waypoint.param4 w' /\
  Waypoint.x w = Waypoint.x w' /\
  Waypoint.y w = Waypoint.y w' /\
  Waypoint.z w = Waypoint.z w'.

(** What the callback of [missionToMavlinkFormat] makes of the waypoints
    that sit at positions [idx], [idx + 1], ... of the array. *)
Fixpoint marked_from (idx : nat) (ws : list Waypoint.t) : list Waypoint.t :=
  match ws with
  | [] => []
  | w :: rest => with_current w (Nat.eqb idx 0) :: marked_from (S idx) rest
  end.

(** The waypoints that the calls of [calls] append to a mission that already
    holds [n] waypoints. *)
Fixpoint appended_from (n : nat) (calls : list add_call) : list Waypoint.t :=
  match calls with
  | [] => []
  | c :: rest =>
      waypoint_literal (Z.of_nat n) (call_lat c) (call_lon c)
        :: appended_from (S n) rest
  end.

(** [a === b] on two numbers: IEEE-754 comparison, under which NaN differs
    from itself and the two zeros are equal. *)
Definition strict_equal (a b : float) : bool := PrimFloat.eqb a b.

(** Run a computation and look at its result in the heap it leaves. *)
Definition observe {A B : Type} (m : M A) (read : heap -> A -> option B) (h : heap)
  : option B :=
  match m h with
  | Some (a, h') => read h' a
  | None => None
  end.

(** The [current] flags and the [seq] numbers held by an array. *)
Definition flags_and_seqs (h : heap) (arr : loc) : option (list bool * list Z) :=
  match read_array h arr with
  | Some ws => Some (List.map Waypoint.current ws, List.map Waypoint.seq ws)
  | None => None
  end.

(** The clock reading of a call. *)
Definition call_now (c : add_call) : string := let '(now, _, _) := c in now.

(** ** Sample runs *)

Definition goa : add_call := ("2026-01-01T00:00:01.000Z", 15.4909, 73.8278)%float.
Definition panaji : add_call := ("2026-01-01T00:00:02.000Z", 15.5, 73.83)%float.
Definition mandovi : add_call := ("2026-01-01T00:00:03.000Z", 15.51, 73.84)%float.

Definition t0 : string := "2026-01-01T00:00:00.000Z".

(** A heap in which somebody stored a mission by hand; the stored [current]
    flags are the opposite of what an upload wants. *)
Definition stored_first : Waypoint.t :=
  with_current (waypoint_literal 0 15.4909 73.8278) false.
Definition stored_second : Waypoint.t :=
  with_current (waypoint_literal 1 15.5 73.83) true.

Definition stored_metadata : MissionMetadata.t :=
  {| MissionMetadata.name := "Harbour survey";
     MissionMetadata.createdAt := t0;
     MissionMetadata.updatedAt := t0 |}.

Definition stored_heap : heap :=
  [OWaypoint stored_first; OWaypoint stored_second; OArray [0; 1]%nat;
   OMetadata stored_metadata;
   OMission {| Mission.waypoints := 2%nat;
               Mission.currentWaypointIndex := 1;
               Mission.metadata := 3%nat |}].

Definition stored_mission : loc := 4%nat.

Definition stored_view : MissionView.t :=
  {| MissionView.waypoints := [stored_first; stored_second];
     MissionView.currentWaypointIndex := 1;
     MissionView.metadata := stored_metadata |}.




(** The heap and the mission after [createEmptyMission()] and two clicks. *)
Definition two_clicks : option (loc * heap) := build t0 [goa; panaji] [].

Definition two_clicks_mission : loc :=
  Eval vm_compute in match two_clicks with Some (m, _) => m | None => 0%nat end.

Definition two_clicks_heap : heap :=
  Eval vm_compute in match two_clicks with Some (_, h) => h | None => [] end.

(** * The application (App.tsx and MapView.tsx)

    The part of the application state that concerns mission planning, and
    the handlers that change it.  An action is handled after the render that
    followed the previous one, so that a handler sees the state the previous
    action left. *)

(** A [[number, number]] tuple: latitude first, longitude second. *)
Abbreviation position := (float * float)%type (only parsing).

(** [a > b] on two numbers. *)
Definition number_gt (a b : float) : bool := PrimFloat.ltb b a.

(** [MissionLogEntry["status"]] *)
Inductive MissionStatus : Set := Accepted | Rejected | Pending.

(** The object literal [missionEntry] of [handleSendWaypoints]; its
    [mission] property holds the reference the state held. *)
Module MissionLogEntry.
Record t : Set := mk {
  id : string;
  timestamp : string;
  mission : loc;
  waypointCount : Z;
  status : MissionStatus;
  message : string
}.
End MissionLogEntry.

(** What was handed to [toast.success] and [toast.info]. *)
Inductive toast : Set :=
| toast_success (text : string)
| toast_info (text : string).

Module App.
Record state : Set := mk {
  mission : loc;
  addWaypointMode : bool;
  missionLog : list MissionLogEntry.t;
  toasts : list toast
}.
End App.

(** What [handleSendWaypoints] reads from its environment, in the order it
    reads it: [Date.now().toString()], [new Date().toLocaleString(...)] and
    the two calls of [Math.random()]. *)
Record send_inputs : Set := {
  date_now : string;
  locale_time : string;
  random1 : float;
  random2 : float
}.

(** [mission.waypoints.length] *)
Definition waypoints_length (mission : loc) : M Z :=
  let* m := get_mission mission in
  let* elems := get_array (Mission.waypoints m) in
  ret (Z.of_nat (length elems)).

(** [n !== 1 ? 's' : ''] *)
Definition plural (n : Z) : string := if n =? 1 then "" else "s".

Definition accepted_message (n n' : Z) : string :=
  "Mission accepted. USV will navigate to " +:+ pretty n +:+ " waypoint"
    +:+ plural n' +:+ ".".

Definition rejected_message : string :=
  "Mission rejected. Waypoint path exceeds safe navigation parameters.".

(** [handleAddWaypoint(position)]: the state setter is given the result of
    [addWaypointToMission] on the mission held, and the toast counts the
    waypoints of the mission the handler closed over. *)
Definition handleAddWaypoint (now : string) (position : position) (s : App.state)
  : M App.state :=
  let* mission' := addWaypointToMission now (App.mission s) (fst position) (snd position) in
  let* n := waypoints_length (App.mission s) in
  ret {| App.mission := mission';
         App.addWaypointMode := false;
         App.missionLog := App.missionLog s;
         App.toasts := App.toasts s ++
                       [toast_success ("Waypoint " +:+ pretty (n + 1) +:+ " added")] |}.

(** [handleClearWaypoints()] *)
Definition handleClearWaypoints (now : string) (s : App.state) : M App.state :=
  let* mission' := createEmptyMission now in
  ret {| App.mission := mission';
         App.addWaypointMode := App.addWaypointMode s;
         App.missionLog := App.missionLog s;
         App.toasts := App.toasts s ++ [toast_info "Waypoints cleared"] |}.

(** [handleSendWaypoints()] *)
Definition handleSendWaypoints (inp : send_inputs) (s : App.state) : M App.state :=
  let* n := waypoints_length (App.mission s) in
  if 0 <? n then
    let* count := waypoints_length (App.mission s) in
    let status := if number_gt (random1 inp) 0.2 then Accepted else Rejected in
    let* message :=
      if number_gt (random2 inp) 0.2 then
        let* k := waypoints_length (App.mission s) in
        let* k' := waypoints_length (App.mission s) in
        ret (accepted_message k k')
      else ret rejected_message in
    let missionEntry :=
      {| MissionLogEntry.id := date_now inp;
         MissionLogEntry.timestamp := locale_time inp;
         MissionLogEntry.mission := App.mission s;
         MissionLogEntry.waypointCount := count;
         MissionLogEntry.status := status;
         MissionLogEntry.message := message |} in
    let* sent := waypoints_length (App.mission s) in
    ret {| App.mission := App.mission s;
           App.addWaypointMode := App.addWaypointMode s;
           App.missionLog := missionEntry :: App.missionLog s;
           App.toasts := App.toasts s ++
                         [toast_success (pretty sent +:+ " waypoints sent to USV via Pixhawk")] |}
  else ret s.

(** What can happen to the planning state: a render (which evaluates the
    argument of [useState<Mission>(createEmptyMission())] once more and
    drops the result), a call of the state setter [setAddWaypointMode], or a
    call of one of the three handlers. *)
Inductive action : Set :=
| Render (now : string)
| SetAddWaypointMode (mode : bool)
| HandleAddWaypoint (now : string) (position : position)
| HandleClearWaypoints (now : string)
| HandleSendWaypoints (inp : send_inputs).

Definition App_step (a : action) (s : App.state) : M App.state :=
  match a with
  | Render now =>
      let* _ := createEmptyMission now in
      ret s
  | SetAddWaypointMode mode =>
      ret {| App.mission := App.mission s;
             App.addWaypointMode := mode;
             App.missionLog := App.missionLog s;
             App.toasts := App.toasts s |}
  | HandleAddWaypoint now position => handleAddWaypoint now position s
  | HandleClearWaypoints now => handleClearWaypoints now s
  | HandleSendWaypoints inp => handleSendWaypoints inp s
  end.

Fixpoint App_run (actions : list action) (s : App.state) : M App.state :=
  match actions with
  | [] => ret s
  | a :: rest =>
      let* s' := App_step a s in
      App_run rest s'
  end.

(** The first render, followed by [actions]. *)
Definition App_start (now : string) (actions : list action) : M App.state :=
  let* mission := createEmptyMission now in
  App_run actions {| App.mission := mission;
                     App.addWaypointMode := false;
                     App.missionLog := [];
                     App.toasts := [] |}.

(** ** What the user does to the map (MapView.tsx) *)

Inductive ui_event : Set :=
| ClickAddWaypointButton
| ClickMap (now : string) (lat lng : float).

(** The button calls [setAddWaypointMode(!addWaypointMode)]; the click
    handler of the map calls [onAddWaypoint([e.latlng.lat, e.latlng.lng])]
    when [addWaypointMode] is set and does nothing otherwise. *)
Definition MapView_action (e : ui_event) (s : App.state) : option action :=
  match e with
  | ClickAddWaypointButton => Some (SetAddWaypointMode (negb (App.addWaypointMode s)))
  | ClickMap now lat lng =>
      if App.addWaypointMode s then Some (HandleAddWaypoint now (lat, lng)) else None
  end.

Definition MapView_step (e : ui_event) (s : App.state) : M App.state :=
  match MapView_action e s with
  | Some a => App_step a s
  | None => ret s
  end.

Fixpoint MapView_run (events : list ui_event) (s : App.state) : M App.state :=
  match events with
  | [] => ret s
  | e :: rest =>
      let* s' := MapView_step e s in
      MapView_run rest s'
  end.

(** The points of the dashed line through the waypoints:
    [mission.waypoints.map(wp => [wp.x, wp.y])]. *)
Definition path_of (wps : list Waypoint.t) : list position :=
  (fun wp => (Waypoint.x wp, Waypoint.y wp)) <$> wps.

Definition mission_path (h : heap) (mission : loc) : option (list position) :=
  match read_mission h mission with
  | Some v => Some (path_of (MissionView.waypoints v))
  | None => None
  end.

(** The number a waypoint marker shows: [waypoint.seq + 1]. *)
Definition marker_number (wp : Waypoint.t) : Z := Waypoint.seq wp + 1.

(** ** The application before the mission model

    The earlier [App] kept the planned waypoints as an array of positions;
    its handlers are pure. *)

Module OldMissionLogEntry.
Record t : Set := mk {
  id : string;
  timestamp : string;
  waypoints : list position;
  waypointCount : Z;
  status : MissionStatus;
  message : string
}.
End OldMissionLogEntry.

Module OldApp.
Record state : Set := mk {
  waypoints : list position;
  addWaypointMode : bool;
  missionLog : list OldMissionLogEntry.t;
  toasts : list toast
}.

Definition length_of (s : state) : Z := Z.of_nat (length (waypoints s)).

Definition handleAddWaypoint (position : position) (s : state) : state :=
  {| waypoints := waypoints s ++ [position];
     addWaypointMode := false;
     missionLog := missionLog s;
     toasts := toasts s ++
               [toast_success ("Waypoint " +:+ pretty (length_of s + 1) +:+ " added")] |}.

Definition handleClearWaypoints (s : state) : state :=
  {| waypoints := [];
     addWaypointMode := addWaypointMode s;
     missionLog := missionLog s;
     toasts := toasts s ++ [toast_info "Waypoints cleared"] |}.

Definition handleSendWaypoints (inp : send_inputs) (s : state) : state :=
  if 0 <? length_of s then
    let missionEntry :=
      {| OldMissionLogEntry.id := date_now inp;
         OldMissionLogEntry.timestamp := locale_time inp;
         OldMissionLogEntry.waypoints := waypoints s;
         OldMissionLogEntry.waypointCount := length_of s;
         OldMissionLogEntry.status :=
           if number_gt (random1 inp) 0.2 then Accepted else Rejected;
         OldMissionLogEntry.message :=
           if number_gt (random2 inp) 0.2
           then accepted_message (length_of s) (length_of s)
           else rejected_message |} in
    {| waypoints := waypoints s;
       addWaypointMode := addWaypointMode s;
       missionLog := missionEntry :: missionLog s;
       toasts := toasts s ++
                 [toast_success (pretty (length_of s) +:+ " waypoints sent to USV via Pixhawk")] |}
  else s.

Definition step (a : action) (s : state) : state :=
  match a with
  | Render _ => s
  | SetAddWaypointMode mode =>
      {| waypoints := waypoints s;
         addWaypointMode := mode;
         missionLog := missionLog s;
         toasts := toasts s |}
  | HandleAddWaypoint _ position => handleAddWaypoint position s
  | HandleClearWaypoints _ => handleClearWaypoints s
  | HandleSendWaypoints inp => handleSendWaypoints inp s
  end.

Definition start (actions : list action) : state :=
  fold_left (fun s a => step a s) actions
    {| waypoints := []; addWaypointMode := false; missionLog := []; toasts := [] |}.
End OldApp.

(** A log entry of the application and a log entry of its predecessor say
    the same thing. *)
Definition entry_matches (h : heap) (e : MissionLogEntry.t) (eo : OldMissionLogEntry.t)
  : Prop :=
  MissionLogEntry.id e = OldMissionLogEntry.id eo /\
  MissionLogEntry.timestamp e = OldMissionLogEntry.timestamp eo /\
  MissionLogEntry.waypointCount e = OldMissionLogEntry.waypointCount eo /\
  MissionLogEntry.status e = OldMissionLogEntry.status eo /\
  MissionLogEntry.message e = OldMissionLogEntry.message eo /\
  mission_path h (MissionLogEntry.mission e) = Some (OldMissionLogEntry.waypoints eo).

Definition state_matches (h : heap) (s : App.state) (so : OldApp.state) : Prop :=
  mission_path h (App.mission s) = Some (OldApp.waypoints so) /\
  App.addWaypointMode s = OldApp.addWaypointMode so /\
  App.toasts s = OldApp.toasts so /\
  Forall2 (entry_matches h) (App.missionLog s) (OldApp.missionLog so).

(** The recorded count of a log entry is the number of waypoints of the
    mission it refers to, and is not zero. *)
Definition entry_counted (h : heap) (e : MissionLogEntry.t) : Prop :=
  exists v,
    read_mission h (MissionLogEntry.mission e) = Some v /\
    MissionLogEntry.waypointCount e = Z.of_nat (length (MissionView.waypoints v)) /\
    0 < MissionLogEntry.waypointCount e.

(** ** Sliding windows (App.tsx)

    The chart keeps the last 20 points and the trail the last 300 positions
    (50 in the earlier [App]).  The arrays involved are rebuilt on every
    update and their elements are never written to, so they are lists. *)

(** [array.slice(start)] with one integer argument: a negative [start]
    counts from the end, and the start index is clamped to the bounds. *)
Definition Array_slice {A : Type} (start : Z) (l : list A) : list A :=
  let len := Z.of_nat (length l) in
  let k := if start <? 0 then Z.max (len + start) 0 else Z.min start len in
  drop (Z.to_nat k) l.

(** [interface SensorData] *)
Module SensorData.
Record t : Set := mk {
  ph : float;
  temperature : float;
  tds : float;
  turbidity : float
}.
End SensorData.

(** [interface ChartDataPoint] *)
Module ChartDataPoint.
Record t : Set := mk {
  timestamp : string;
  ph : float;
  temperature : float;
  turbidity : float;
  tds : float
}.
End ChartDataPoint.

(** The object literal [newPoint] of the telemetry timer. *)
Definition newPoint (timestamp : string) (newData : SensorData.t) : ChartDataPoint.t :=
  {| ChartDataPoint.timestamp := timestamp;
     ChartDataPoint.ph := SensorData.ph newData;
     ChartDataPoint.temperature := SensorData.temperature newData;
     ChartDataPoint.turbidity := SensorData.turbidity newData;
     ChartDataPoint.tds := SensorData.tds newData |}.

(** [setChartData(prev => [...prev.slice(-19), newPoint])] *)
Definition chart_update (timestamp : string) (newData : SensorData.t)
  (prev : list ChartDataPoint.t) : list ChartDataPoint.t :=
  Array_slice (-19) prev ++ [newPoint timestamp newData].

(** [setTrail(prevTrail => { const newTrail = [...prevTrail, [pos.lat, pos.lon]];
    return newTrail.slice(-300); })] *)
Definition trail_update (lat lon : float) (prevTrail : list position) : list position :=
  let newTrail := prevTrail ++ [(lat, lon)] in
  Array_slice (-300) newTrail.

(** The earlier [App]: [setTrail(prevTrail => [...prevTrail.slice(-49), newPos])] *)
Definition old_trail_update (newPos : position) (prevTrail : list position)
  : list position :=
  Array_slice (-49) prevTrail ++ [newPos].

(** The updates of a sequence of telemetry readings, oldest first. *)
Definition chart_updates (readings : list (string * SensorData.t))
  (chartData : list ChartDataPoint.t) : list ChartDataPoint.t :=
  fold_left (fun prev r => chart_update (fst r) (snd r) prev) readings chartData.

Definition trail_updates (fixes : list position) (trail : list position) : list position :=
  fold_left (fun prev p => trail_update (fst p) (snd p) prev) fixes trail.

Definition old_trail_updates (fixes : list position) (trail : list position)
  : list position :=
  fold_left (fun prev p => old_trail_update p prev) fixes trail.

(** ** Water quality (App.tsx) *)

Inductive WaterQuality : Set := good | moderate | poor.

(** [a >= b], [a <= b] and [a < b] on two numbers. *)
Definition number_ge (a b : float) : bool := PrimFloat.leb b a.
Definition number_le (a b : float) : bool := PrimFloat.leb a b.
Definition number_lt (a b : float) : bool := PrimFloat.ltb a b.

(** [calculateWaterQuality(data)]; [score++] adds 1 to a number. *)
Definition calculateWaterQuality (data : SensorData.t) : WaterQuality :=
  let score := 0%float in
  let score :=
    if number_ge (SensorData.ph data) 6.5 && number_le (SensorData.ph data) 8.5
    then (score + 1)%float
    else if number_ge (SensorData.ph data) 6.0 && number_le (SensorData.ph data) 9.0
    then (score + 0.5)%float
    else score in
  let score :=
    if number_ge (SensorData.temperature data) 20
       && number_le (SensorData.temperature data) 28
    then (score + 1)%float
    else if number_ge (SensorData.temperature data) 15
            && number_le (SensorData.temperature data) 32
    then (score + 0.5)%float
    else score in
  let score :=
    if number_lt (SensorData.tds data) 500 then (score + 1)%float
    else if number_lt (SensorData.tds data) 600 then (score + 0.5)%float
    else score in
  let score :=
    if number_lt (SensorData.turbidity data) 5 then (score + 1)%float
    else if number_lt (SensorData.turbidity data) 10 then (score + 0.5)%float
    else score in
  if number_ge score 3.5 then good
  else if number_ge score 2 then moderate
  else poor.

(** The bands the comments of [calculateWaterQuality] name: a reading is
    ideal, or else acceptable, or neither. *)
Inductive band : Set := ideal | acceptable | outside.

Definition ph_band (data : SensorData.t) : band :=
  if number_ge (SensorData.ph data) 6.5 && number_le (SensorData.ph data) 8.5 then ideal
  else if number_ge (SensorData.ph data) 6.0 && number_le (SensorData.ph data) 9.0
  then acceptable else outside.

Definition temperature_band (data : SensorData.t) : band :=
  if number_ge (SensorData.temperature data) 20
     && number_le (SensorData.temperature data) 28 then ideal
  else if number_ge (SensorData.temperature data) 15
          && number_le (SensorData.temperature data) 32
  then acceptable else outside.

Definition tds_band (data : SensorData.t) : band :=
  if number_lt (SensorData.tds data) 500 then ideal
  else if number_lt (SensorData.tds data) 600 then acceptable else outside.

Definition turbidity_band (data : SensorData.t) : band :=
  if number_lt (SensorData.turbidity data) 5 then ideal
  else if number_lt (SensorData.turbidity data) 10 then acceptable else outside.

(** Twice the points a band is worth. *)
Definition half_points (b : band) : Z :=
  match b with ideal => 2 | acceptable => 1 | outside => 0 end.

Definition total_half_points (data : SensorData.t) : Z :=
  half_points (ph_band data) + half_points (temperature_band data)
  + half_points (tds_band data) + half_points (turbidity_band data).

(** ** More sample data *)

Definition sample_send : send_inputs :=
  {| date_now := "1767225602000";
     locale_time := "Jan 1, 2026, 12:00:02 AM";
     random1 := 0.9;
     random2 := 0.1 |}.

(** The planning state after two clicks, with the add-waypoint mode on. *)
Definition sample_state : App.state :=
  {| App.mission := two_clicks_mission;
     App.addWaypointMode := true;
     App.missionLog := [];
     App.toasts := [] |}.

Definition sample_actions : list action :=
  [HandleSendWaypoints sample_send;
   HandleAddWaypoint "2026-01-01T00:00:03.000Z" (15.51, 73.84)%float;
   HandleClearWaypoints "2026-01-01T00:00:04.000Z";
   HandleSendWaypoints sample_send].

Definition sample_state_after : App.state :=
  Eval vm_compute in
    match App_run sample_actions sample_state two_clicks_heap with
    | Some (s, _) => s
    | None => sample_state
    end.

Definition sample_heap_after : heap :=
  Eval vm_compute in
    match App_run sample_actions sample_state two_clicks_heap with
    | Some (_, h) => h
    | None => []
    end.

(** An application that has just started. *)
Definition fresh_heap : heap :=
  Eval vm_compute in
    match createEmptyMission t0 [] with Some (_, h) => h | None => [] end.

Definition fresh_state : App.state :=
  {| App.mission := 2%nat;
     App.addWaypointMode := false;
     App.missionLog := [];
     App.toasts := [] |}.

Definition two_clicks_view : MissionView.t :=
  Eval vm_compute in
    match read_mission two_clicks_heap two_clicks_mission with
    | Some v => v
    | None => stored_view
    end.

Definition clean_water : SensorData.t :=
  {| SensorData.ph := 7.2; SensorData.temperature := 24;
     SensorData.tds := 450; SensorData.turbidity := 3 |}.

Definition murky_water : SensorData.t :=
  {| SensorData.ph := 7.2; SensorData.temperature := 24;
     SensorData.tds := 450; SensorData.turbidity := nan |}.

Example scenario_A :
  observe (createEmptyMission t0) read_mission [] =
  Some {| MissionView.waypoints := [];
          MissionView.currentWaypointIndex := 0;
          MissionView.metadata :=
            {| MissionMetadata.name := "USV Mission";
               MissionMetadata.createdAt := t0;
               MissionMetadata.updatedAt := t0 |} |}.
Proof. reflexivity. Qed.

Example scenario_B :
  observe (build t0 [goa]) read_mission [] =
  Some {| MissionView.waypoints :=
            [ {| Waypoint.seq := 0;
                 Waypoint.frame := MAV_FRAME_GLOBAL_RELATIVE_ALT;
                 Waypoint.command := MAV_CMD_NAV_WAYPOINT;
                 Waypoint.current := false;
                 Waypoint.autocontinue := true;
                 Waypoint.param1 := 0;
                 Waypoint.param2 := 2;
                 Waypoint.param3 := 0;
                 Waypoint.param4 := 0;
                 Waypoint.x := 15.4909;
                 Waypoint.y := 73.8278;
                 Waypoint.z := 0 |} ];
          MissionView.currentWaypointIndex := 0;
          MissionView.metadata :=
            {| MissionMetadata.name := "USV Mission";
               MissionMetadata.createdAt := t0;
               MissionMetadata.updatedAt := "2026-01-01T00:00:01.000Z" |} |}.
Proof. reflexivity. Qed.

Example scenario_C :
  observe (let* m := build t0 [goa; panaji; mandovi] in missionToMavlinkFormat m)
          flags_and_seqs [] =
  Some ([true; false; false], [0; 1; 2]).
Proof. reflexivity. Qed.

(** ** The heap only grows *)

Section Growth.

Context {h h' : heap} (Hgrow : h `prefix_of` h').

Lemma lookup_grow l o : h !! l = Some o -> h' !! l = Some o.
Proof. intros Hl. exact (prefix_lookup_Some _ _ _ _ Hl Hgrow). Qed.

Lemma read_waypoint_grow l w :
  read_waypoint h l = Some w -> read_waypoint h' l = Some w.
Proof.
  unfold read_waypoint. destruct (h !! l) as [o|] eqn:Hl; [|discriminate].
  rewrite (lookup_grow _ _ Hl). trivial.
Qed.

Lemma read_metadata_grow l md :
  read_metadata h l = Some md -> read_metadata h' l = Some md.
Proof.
  unfold read_metadata. destruct (h !! l) as [o|] eqn:Hl; [|discriminate].
  rewrite (lookup_grow _ _ Hl). trivial.
Qed.

Lemma read_elems_grow elems ws :
  mapM (read_waypoint h) elems = Some ws ->
  mapM (read_waypoint h') elems = Some ws.
Proof.
  rewrite !mapM_Some. intros Hall. eapply Forall2_impl; [exact Hall|].
  intros l w. apply read_waypoint_grow.
Qed.

Lemma read_array_grow l ws :
  read_array h l = Some ws -> read_array h' l = Some ws.
Proof.
  unfold read_array. destruct (h !! l) as [o|] eqn:Hl; [|discriminate].
  rewrite (lookup_grow _ _ Hl). destruct o; try discriminate.
  apply read_elems_grow.
Qed.

Lemma read_mission_grow l v :
  read_mission h l = Some v -> read_mission h' l = Some v.
Proof.
  unfold read_mission. destruct (h !! l) as [o|] eqn:Hl; [|discriminate].
  rewrite (lookup_grow _ _ Hl). destruct o as [| | |m]; try discriminate.
  destruct (read_array h _) as [wps|] eqn:Hw; [|discriminate].
  destruct (read_metadata h _) as [md|] eqn:Hmd; [|discriminate].
  rewrite (read_array_grow _ _ Hw), (read_metadata_grow _ _ Hmd). trivial.
Qed.

End Growth.

(** ** What a well-formed mission looks like in the heap *)

Lemma read_mission_inv h l v :
  read_mission h l = Some v ->
  exists m elems,
    h !! l = Some (OMission m) /\
    h !! Mission.waypoints m = Some (OArray elems) /\
    mapM (read_waypoint h) elems = Some (MissionView.waypoints v) /\
    h !! Mission.metadata m = Some (OMetadata (MissionView.metadata v)) /\
    Mission.currentWaypointIndex m = MissionView.currentWaypointIndex v.
Proof.
  unfold read_mission, read_array, read_metadata.
  destruct (h !! l) as [[| | |m]|] eqn:Hl; try discriminate.
  destruct (h !! Mission.waypoints m) as [[|elems| |]|] eqn:Ha; try discriminate.
  destruct (mapM _ elems) as [wps|] eqn:Hw; try discriminate.
  destruct (h !! Mission.metadata m) as [[| |md|]|] eqn:Hmd; try discriminate.
  intros [= <-]. exists m, elems. repeat split; assumption.
Qed.

Lemma read_mission_intro h l m elems wps md :
  h !! l = Some (OMission m) ->
  h !! Mission.waypoints m = Some (OArray elems) ->
  mapM (read_waypoint h) elems = Some wps ->
  h !! Mission.metadata m = Some (OMetadata md) ->
  read_mission h l =
    Some {| MissionView.waypoints := wps;
            MissionView.currentWaypointIndex := Mission.currentWaypointIndex m;
            MissionView.metadata := md |}.
Proof.
  intros Hl Ha Hw Hmd. unfold read_mission, read_array, read_metadata.
  rewrite Hl, Ha, Hw, Hmd. reflexivity.
Qed.

(** ** Running the operations *)

(** A property read succeeds in the current heap when the object was there in
    an earlier one. *)
Ltac read_with H :=
  rewrite <- ?app_assoc;
  first [ rewrite H | rewrite (lookup_app_l_Some _ _ _ _ H) ];
  cbn beta iota.

Lemma createEmptyMission_run now h :
  createEmptyMission now h =
    Some ((length h + 2)%nat,
          h ++ [OArray [];
                OMetadata {| MissionMetadata.name := "USV Mission";
                             MissionMetadata.createdAt := now;
                             MissionMetadata.updatedAt := now |};
                OMission {| Mission.waypoints := length h;
                            Mission.currentWaypointIndex := 0;
                            Mission.metadata := (length h + 1)%nat |}]).
Proof.
  unfold createEmptyMission, bind, alloc.
  rewrite <- !app_assoc, !length_app. cbn [length app].
  repeat f_equal; lia.
Qed.

Lemma addWaypointToMission_run h mission m elems md now lat lon :
  h !! mission = Some (OMission m) ->
  h !! Mission.waypoints m = Some (OArray elems) ->
  h !! Mission.metadata m = Some (OMetadata md) ->
  addWaypointToMission now mission lat lon h =
    Some ((length h + 3)%nat,
          h ++ [OWaypoint (waypoint_literal (Z.of_nat (length elems)) lat lon);
                OArray (elems ++ [length h]);
                OMetadata {| MissionMetadata.name := MissionMetadata.name md;
                             MissionMetadata.createdAt := MissionMetadata.createdAt md;
                             MissionMetadata.updatedAt := now |};
                OMission {| Mission.waypoints := (length h + 1)%nat;
                            Mission.currentWaypointIndex := Mission.currentWaypointIndex m;
                            Mission.metadata := (length h + 2)%nat |}]).
Proof.
  intros Hm Ha Hmd.
  unfold addWaypointToMission, createWaypoint, bind,
    get_mission, get_array, get_metadata, alloc.
  read_with Hm. read_with Ha. read_with Hm. read_with Ha. read_with Hmd.
  rewrite <- !app_assoc, !length_app. cbn [length app].
  repeat f_equal; lia.
Qed.

(** ** The array produced by [map] *)

Lemma marked_from_length idx ws : length (marked_from idx ws) = length ws.
Proof. revert idx. induction ws as [|w ws IH]; intros idx; cbn; [|rewrite IH]; trivial. Qed.

Lemma marked_from_lookup idx ws i :
  marked_from idx ws !! i =
    (fun w => with_current w (Nat.eqb (idx + i) 0)) <$> ws !! i.
Proof.
  revert idx i. induction ws as [|w ws IH]; intros idx [|i]; cbn; trivial.
  - rewrite Nat.add_0_r. trivial.
  - rewrite IH. rewrite <- Nat.add_succ_comm. trivial.
Qed.

(** Waypoint objects allocated one after the other are read back through
    the consecutive addresses they were given. *)
Lemma read_fresh_waypoints ws h k :
  mapM (read_waypoint (h ++ (OWaypoint <$> ws) ++ k))
       (List.seq (length h) (length ws)) = Some ws.
Proof.
  revert h. induction ws as [|w ws IH]; intros h; [reflexivity|].
  cbn [length List.seq fmap list_fmap app]. rewrite mapM_Some.
  constructor.
  - unfold read_waypoint. rewrite list_lookup_middle; trivial.
  - apply mapM_Some. specialize (IH (h ++ [OWaypoint w])).
    rewrite <- app_assoc, length_app, Nat.add_1_r in IH. exact IH.
Qed.

Lemma map_from_run elems : forall ws h idx,
  mapM (read_waypoint h) elems = Some ws ->
  map_from mark_current idx elems h =
    Some (List.seq (length h) (length elems),
          h ++ (OWaypoint <$> marked_from idx ws)).
Proof.
  induction elems as [|e elems IH]; intros ws h idx Hread.
  - apply mapM_Some in Hread. inversion Hread; subst.
    cbn. unfold ret. rewrite app_nil_r. reflexivity.
  - apply mapM_Some in Hread. inversion Hread as [|? w ? ws' He Hrest]; subst.
    cbn [map_from]. unfold bind at 1. unfold mark_current at 1.
    unfold bind at 1, get_waypoint, alloc.
    unfold read_waypoint in He.
    destruct (h !! e) as [[w0| | |]|] eqn:Hl; try discriminate.
    injection He as ->. cbn beta iota.
    unfold bind at 1.
    rewrite (IH ws' (h ++ [OWaypoint (with_current w (Nat.eqb idx 0))]) (S idx)).
    + unfold ret. cbn [marked_from length List.seq fmap list_fmap].
      rewrite <- app_assoc, length_app, Nat.add_1_r. reflexivity.
    + apply mapM_Some. eapply Forall2_impl; [exact Hrest|].
      intros l w'. apply read_waypoint_grow. apply prefix_app_r. reflexivity.
Qed.

Lemma missionToMavlinkFormat_run h mission m elems ws :
  h !! mission = Some (OMission m) ->
  h !! Mission.waypoints m = Some (OArray elems) ->
  mapM (read_waypoint h) elems = Some ws ->
  missionToMavlinkFormat mission h =
    Some ((length h + length ws)%nat,
          h ++ (OWaypoint <$> marked_from 0 ws)
            ++ [OArray (List.seq (length h) (length ws))]).
Proof.
  intros Hm Ha Hread.
  unfold missionToMavlinkFormat, Array_map, bind at 1 2, get_mission, get_array.
  rewrite Hm. cbn beta iota. rewrite Ha. cbn beta iota.
  unfold bind. rewrite (map_from_run _ _ _ _ Hread). unfold alloc.
  apply mapM_Some, Forall2_length in Hread.
  rewrite length_app, length_fmap, marked_from_length, <- app_assoc, Hread.
  reflexivity.
Qed.

Lemma read_marked_array h ws :
  read_array (h ++ (OWaypoint <$> marked_from 0 ws)
                ++ [OArray (List.seq (length h) (length ws))])
             (length h + length ws) = Some (marked_from 0 ws).
Proof.
  unfold read_array.
  assert (Hlen : (length h + length ws)%nat =
                 length (h ++ (OWaypoint <$> marked_from 0 ws))).
  { rewrite length_app, length_fmap, marked_from_length. trivial. }
  rewrite Hlen at 1. rewrite app_assoc, list_lookup_middle by trivial.
  rewrite <- app_assoc, <- (marked_from_length 0 ws).
  apply read_fresh_waypoints.
Qed.

(** ** The operations seen through [read_mission] *)

(** The [i]-th object allocated on top of [h]. *)
Lemma lookup_fresh (h k : heap) i j :
  j = (length h + i)%nat -> (h ++ k) !! j = k !! i.
Proof. intros ->. rewrite lookup_app_r by lia. f_equal. lia. Qed.

Lemma createEmptyMission_view now h :
  exists m h',
    createEmptyMission now h = Some (m, h') /\
    h `prefix_of` h' /\
    h !! m = None /\
    read_mission h' m =
      Some {| MissionView.waypoints := [];
              MissionView.currentWaypointIndex := 0;
              MissionView.metadata :=
                {| MissionMetadata.name := "USV Mission";
                   MissionMetadata.createdAt := now;
                   MissionMetadata.updatedAt := now |} |}.
Proof.
  eexists _, _. split; [apply createEmptyMission_run|].
  split; [apply prefix_app_r; reflexivity|].
  split; [apply lookup_ge_None; lia|].
  unfold read_mission, read_array, read_metadata.
  rewrite (lookup_fresh h _ 2) by lia. cbn [lookup list_lookup Mission.waypoints Mission.metadata].
  rewrite (lookup_fresh h _ 0) by lia. cbn [lookup list_lookup].
  rewrite (lookup_fresh h _ 1) by lia. reflexivity.
Qed.

Lemma addWaypointToMission_view now h m v lat lon :
  read_mission h m = Some v ->
  exists m' h',
    addWaypointToMission now m lat lon h = Some (m', h') /\
    h `prefix_of` h' /\
    h !! m' = None /\
    read_mission h' m' =
      Some {| MissionView.waypoints :=
                MissionView.waypoints v ++
                [waypoint_literal (Z.of_nat (length (MissionView.waypoints v))) lat lon];
              MissionView.currentWaypointIndex := MissionView.currentWaypointIndex v;
              MissionView.metadata :=
                {| MissionMetadata.name :=
                     MissionMetadata.name (MissionView.metadata v);
                   MissionMetadata.createdAt :=
                     MissionMetadata.createdAt (MissionView.metadata v);
                   MissionMetadata.updatedAt := now |} |}.
Proof.
  intros Hv. destruct (read_mission_inv _ _ _ Hv) as (mo & elems & Hm & Ha & Hw & Hmd & Hc).
  eexists _, _. split; [exact (addWaypointToMission_run _ _ _ _ _ now lat lon Hm Ha Hmd)|].
  split; [apply prefix_app_r; reflexivity|].
  split; [apply lookup_ge_None; lia|].
  assert (Hlen : length elems = length (MissionView.waypoints v))
    by (apply mapM_Some, Forall2_length in Hw; exact Hw).
  rewrite <- Hc, <- Hlen.
  erewrite read_mission_intro; cycle 1.
  - rewrite (lookup_fresh h _ 3) by lia. reflexivity.
  - cbn [Mission.waypoints]. rewrite (lookup_fresh h _ 1) by lia. reflexivity.
  - apply mapM_Some, Forall2_app.
    + apply mapM_Some. eapply read_elems_grow; [|exact Hw].
      apply prefix_app_r. reflexivity.
    + constructor; [|constructor]. unfold read_waypoint.
      rewrite (lookup_fresh h _ 0) by lia. reflexivity.
  - cbn [Mission.metadata]. rewrite (lookup_fresh h _ 2) by lia. reflexivity.
  - reflexivity.
Qed.

Lemma missionToMavlinkFormat_view h m v :
  read_mission h m = Some v ->
  exists out h',
    missionToMavlinkFormat m h = Some (out, h') /\
    h `prefix_of` h' /\
    h !! out = None /\
    read_array h' out = Some (marked_from 0 (MissionView.waypoints v)).
Proof.
  intros Hv. destruct (read_mission_inv _ _ _ Hv) as (mo & elems & Hm & Ha & Hw & _).
  eexists _, _. split; [exact (missionToMavlinkFormat_run _ _ _ _ _ Hm Ha Hw)|].
  split; [apply prefix_app_r; reflexivity|].
  split; [apply lookup_ge_None; lia|].
  apply read_marked_array.
Qed.

(** ** createWaypoint *)

(** C5.  For every [seq], [lat] and [lon], [createWaypoint(seq, lat, lon)]
    returns a new waypoint object whose frame is
    MAV_FRAME_GLOBAL_RELATIVE_ALT, whose command is MAV_CMD_NAV_WAYPOINT,
    with [current = false], [autocontinue = true], [param1 = 0],
    [param2 = 2], [param3 = 0], [param4 = 0], [z = 0], and whose [seq], [x]
    and [y] are exactly the supplied [seq], [lat] and [lon]: nothing is
    validated or clamped, and no existing object is touched. *)
Theorem createWaypoint_defaults (h : heap) (seq : Z) (lat lon : float) :
  exists l h' w,
    createWaypoint seq lat lon h = Some (l, h') /\
    h `prefix_of` h' /\
    read_waypoint h' l = Some w /\
    Waypoint.frame w = MAV_FRAME_GLOBAL_RELATIVE_ALT /\
    Waypoint.command w = MAV_CMD_NAV_WAYPOINT /\
    Waypoint.current w = false /\
    Waypoint.autocontinue w = true /\
    Waypoint.param1 w = 0%float /\
    Waypoint.param2 w = 2%float /\
    Waypoint.param3 w = 0%float /\
    Waypoint.param4 w = 0%float /\
    Waypoint.z w = 0%float /\
    Waypoint.seq w = seq /\
    Waypoint.x w = lat /\
    Waypoint.y w = lon.
Proof.
  exists (length h), (h ++ [OWaypoint (waypoint_literal seq lat lon)]),
    (waypoint_literal seq lat lon).
  split; [reflexivity|].
  split; [apply prefix_app_r; reflexivity|].
  split.
  - unfold read_waypoint. rewrite list_lookup_middle; trivial.
  - cbn. repeat split.
Qed.

(** ** missionToMavlinkFormat *)

(** C2.  For every mission M, [missionToMavlinkFormat(M)] returns an array
    of the same length as [M.waypoints]; its element at position 0 has
    [current = true] and every other element has [current = false],
    whatever the [current] values stored in M; every other field of each
    element equals the field of the input waypoint at the same position; and
    M is not mutated (every object that existed before the call is unchanged,
    so M reads as before). *)
Theorem missionToMavlinkFormat_marks_first (h : heap) (m : loc) (v : MissionView.t) :
  read_mission h m = Some v ->
  exists out h' ws,
    missionToMavlinkFormat m h = Some (out, h') /\
    read_array h' out = Some ws /\
    length ws = length (MissionView.waypoints v) /\
    (forall w, ws !! 0%nat = Some w -> Waypoint.current w = true) /\
    (forall i w, i <> 0%nat -> ws !! i = Some w -> Waypoint.current w = false) /\
    (forall i w, ws !! i = Some w ->
       exists wp, MissionView.waypoints v !! i = Some wp /\ same_but_current w wp) /\
    h `prefix_of` h' /\
    read_mission h' m = Some v.
Proof.
  intros Hv.
  destruct (missionToMavlinkFormat_view _ _ _ Hv) as (out & h' & Hrun & Hgrow & _ & Hout).
  exists out, h', (marked_from 0 (MissionView.waypoints v)).
  split; [exact Hrun|]. split; [exact Hout|].
  split; [apply marked_from_length|].
  split; [|split; [|split; [|split]]].
  - intros w. rewrite marked_from_lookup.
    destruct (MissionView.waypoints v !! 0%nat); [|discriminate].
    intros [= <-]. reflexivity.
  - intros i w Hi. rewrite marked_from_lookup.
    destruct (MissionView.waypoints v !! i); [|discriminate].
    intros [= <-]. cbn. apply Nat.eqb_neq. exact Hi.
  - intros i w. rewrite marked_from_lookup.
    destruct (MissionView.waypoints v !! i) as [wp|]; [|discriminate].
    intros [= <-]. exists wp. split; [reflexivity|]. repeat split.
  - exact Hgrow.
  - exact (read_mission_grow Hgrow _ _ Hv).
Qed.

Lemma missionToMavlinkFormat_marks_first_witness :
  read_mission stored_heap stored_mission = Some stored_view /\
  exists out h' ws,
    missionToMavlinkFormat stored_mission stored_heap = Some (out, h') /\
    read_array h' out = Some ws /\
    length ws = length (MissionView.waypoints stored_view) /\
    (forall w, ws !! 0%nat = Some w -> Waypoint.current w = true) /\
    (forall i w, i <> 0%nat -> ws !! i = Some w -> Waypoint.current w = false) /\
    (forall i w, ws !! i = Some w ->
       exists wp, MissionView.waypoints stored_view !! i = Some wp /\
                  same_but_current w wp) /\
    stored_heap `prefix_of` h' /\
    read_mission h' stored_mission = Some stored_view.
Proof.
  split; [reflexivity|].
  apply (missionToMavlinkFormat_marks_first stored_heap stored_mission stored_view).
  reflexivity.
Defined.






(** The item that gets marked is the one at position 0 of the array; on a
    hand-made mission that breaks the [seq] invariant this is not the item
    whose [seq] is 0. *)
Example marks_position_not_seq :
  observe
    (let* a := alloc (OWaypoint (waypoint_literal 7 1 2)) in
     let* b := alloc (OWaypoint (waypoint_literal 0 3 4)) in
     let* arr := alloc (OArray [a; b]) in
     let* md := alloc (OMetadata stored_metadata) in
     let* m := alloc (OMission {| Mission.waypoints := arr;
                                  Mission.currentWaypointIndex := 0;
                                  Mission.metadata := md |}) in
     missionToMavlinkFormat m)
    read_array [] =
  Some [with_current (waypoint_literal 7 1 2) true;
        with_current (waypoint_literal 0 3 4) false].
Proof. reflexivity. Qed.

(** ** addWaypointToMission *)

(** C4.  [addWaypointToMission(M, lat, lon)] does not mutate M: every
    object that existed before the call is unchanged, so the contents and the
    length of M's waypoint array are what they were.  The result is a new
    mission in which the new waypoint (at index [M.waypoints.length]) has
    [seq] equal to M's waypoint count, [metadata.updatedAt] is the current
    time, and [name], [createdAt] and [currentWaypointIndex] are those of
    M. *)
Theorem addWaypointToMission_frame
  (now : string) (h : heap) (m : loc) (v : MissionView.t) (lat lon : float) :
  read_mission h m = Some v ->
  exists m' h' v' wp,
    addWaypointToMission now m lat lon h = Some (m', h') /\
    h `prefix_of` h' /\
    read_mission h' m = Some v /\
    h !! m' = None /\
    read_mission h' m' = Some v' /\
    MissionView.waypoints v' !! length (MissionView.waypoints v) = Some wp /\
    Waypoint.seq wp = Z.of_nat (length (MissionView.waypoints v)) /\
    MissionMetadata.updatedAt (MissionView.metadata v') = now /\
    MissionMetadata.name (MissionView.metadata v') =
      MissionMetadata.name (MissionView.metadata v) /\
    MissionMetadata.createdAt (MissionView.metadata v') =
      MissionMetadata.createdAt (MissionView.metadata v) /\
    MissionView.currentWaypointIndex v' = MissionView.currentWaypointIndex v.
Proof.
  intros Hv.
  destruct (addWaypointToMission_view now _ _ _ lat lon Hv)
    as (m' & h' & Hrun & Hgrow & Hnew & Hv').
  eexists m', h', _, _.
  split; [exact Hrun|]. split; [exact Hgrow|].
  split; [exact (read_mission_grow Hgrow _ _ Hv)|].
  split; [exact Hnew|]. split; [exact Hv'|].
  split; [apply list_lookup_middle; reflexivity|].
  repeat split.
Qed.

Lemma addWaypointToMission_frame_witness :
  read_mission stored_heap stored_mission = Some stored_view /\
  exists m' h' v' wp,
    addWaypointToMission "2026-01-01T00:00:03.000Z" stored_mission 15.51 73.84
      stored_heap = Some (m', h') /\
    stored_heap `prefix_of` h' /\
    read_mission h' stored_mission = Some stored_view /\
    stored_heap !! m' = None /\
    read_mission h' m' = Some v' /\
    MissionView.waypoints v' !! length (MissionView.waypoints stored_view) = Some wp /\
    Waypoint.seq wp = Z.of_nat (length (MissionView.waypoints stored_view)) /\
    MissionMetadata.updatedAt (MissionView.metadata v') = "2026-01-01T00:00:03.000Z" /\
    MissionMetadata.name (MissionView.metadata v') =
      MissionMetadata.name (MissionView.metadata stored_view) /\
    MissionMetadata.createdAt (MissionView.metadata v') =
      MissionMetadata.createdAt (MissionView.metadata stored_view) /\
    MissionView.currentWaypointIndex v' = MissionView.currentWaypointIndex stored_view.
Proof.
  split; [reflexivity|].
  apply (addWaypointToMission_frame _ stored_heap stored_mission stored_view).
  reflexivity.
Defined.

(** The new array holds the very references of the old one: the existing
    waypoint objects are shared, not copied. *)
Lemma addWaypointToMission_shares_waypoints h mission m elems md now lat lon :
  h !! mission = Some (OMission m) ->
  h !! Mission.waypoints m = Some (OArray elems) ->
  h !! Mission.metadata m = Some (OMetadata md) ->
  exists m' h' mo',
    addWaypointToMission now mission lat lon h = Some (m', h') /\
    h' !! m' = Some (OMission mo') /\
    h' !! Mission.waypoints mo' = Some (OArray (elems ++ [length h])).
Proof.
  intros Hm Ha Hmd. eexists _, _, _.
  split; [exact (addWaypointToMission_run _ _ _ _ _ now lat lon Hm Ha Hmd)|].
  split.
  - rewrite (lookup_fresh h _ 3) by lia. reflexivity.
  - cbn [Mission.waypoints]. rewrite (lookup_fresh h _ 1) by lia. reflexivity.
Qed.

(** C10.  [addWaypointToMission] keeps the existing waypoints in its
    result: for a mission M with K waypoints, the returned mission has K+1
    waypoints, and for every [i < K] its waypoint at index [i] equals the
    waypoint of M at index [i] in every field. *)
Theorem addWaypointToMission_keeps_waypoints
  (now : string) (h : heap) (m : loc) (v : MissionView.t) (lat lon : float) :
  read_mission h m = Some v ->
  exists m' h' v',
    addWaypointToMission now m lat lon h = Some (m', h') /\
    read_mission h' m' = Some v' /\
    length (MissionView.waypoints v') = S (length (MissionView.waypoints v)) /\
    (forall i, (i < length (MissionView.waypoints v))%nat ->
       MissionView.waypoints v' !! i = MissionView.waypoints v !! i) /\
    take (length (MissionView.waypoints v)) (MissionView.waypoints v') =
      MissionView.waypoints v.
Proof.
  intros Hv.
  destruct (addWaypointToMission_view now _ _ _ lat lon Hv)
    as (m' & h' & Hrun & _ & _ & Hv').
  eexists m', h', _.
  split; [exact Hrun|]. split; [exact Hv'|]. cbn [MissionView.waypoints].
  split; [rewrite length_app; cbn; lia|].
  split.
  - intros i Hi. apply lookup_app_l. exact Hi.
  - apply take_app_length.
Qed.

Lemma addWaypointToMission_keeps_waypoints_witness :
  read_mission stored_heap stored_mission = Some stored_view /\
  exists m' h' v',
    addWaypointToMission "2026-01-01T00:00:03.000Z" stored_mission 15.51 73.84
      stored_heap = Some (m', h') /\
    read_mission h' m' = Some v' /\
    length (MissionView.waypoints v') = S (length (MissionView.waypoints stored_view)) /\
    (forall i, (i < length (MissionView.waypoints stored_view))%nat ->
       MissionView.waypoints v' !! i = MissionView.waypoints stored_view !! i) /\
    take (length (MissionView.waypoints stored_view)) (MissionView.waypoints v') =
      MissionView.waypoints stored_view.
Proof.
  split; [reflexivity|].
  apply (addWaypointToMission_keeps_waypoints _ stored_heap stored_mission stored_view).
  reflexivity.
Defined.

(** ** Totality *)

(** C9.  The four operations of the mission model never fail on
    well-formed input: [createEmptyMission] and [createWaypoint] return a
    result in every heap, [addWaypointToMission] and
    [missionToMavlinkFormat] return a result for every well-formed mission,
    and [missionToMavlinkFormat] applied to a mission without waypoints
    returns an empty array. *)
Theorem mission_model_total :
  (forall now h, is_Some (createEmptyMission now h)) /\
  (forall seq lat lon h, is_Some (createWaypoint seq lat lon h)) /\
  (forall now m lat lon h,
     wf_mission h m -> is_Some (addWaypointToMission now m lat lon h)) /\
  (forall m h, wf_mission h m -> is_Some (missionToMavlinkFormat m h)) /\
  (forall m h v,
     read_mission h m = Some v -> MissionView.waypoints v = [] ->
     exists out h',
       missionToMavlinkFormat m h = Some (out, h') /\
       read_array h' out = Some []).
Proof.
  repeat apply conj.
  - intros now h. rewrite createEmptyMission_run. eauto.
  - intros seq lat lon h. unfold createWaypoint, alloc. eauto.
  - intros now m lat lon h [v Hv].
    destruct (addWaypointToMission_view now _ _ _ lat lon Hv) as (m' & h' & Hrun & _).
    rewrite Hrun. eauto.
  - intros m h [v Hv].
    destruct (missionToMavlinkFormat_view _ _ _ Hv) as (out & h' & Hrun & _).
    rewrite Hrun. eauto.
  - intros m h v Hv Hempty.
    destruct (missionToMavlinkFormat_view _ _ _ Hv) as (out & h' & Hrun & _ & _ & Hout).
    rewrite Hempty in Hout. eauto.
Qed.

Lemma mission_model_total_witness :
  is_Some (createEmptyMission t0 stored_heap) /\
  is_Some (createWaypoint (-1) 91 181 stored_heap) /\
  is_Some (addWaypointToMission t0 stored_mission 15.51 73.84 stored_heap) /\
  is_Some (missionToMavlinkFormat stored_mission stored_heap) /\
  exists out h',
    missionToMavlinkFormat 2%nat [OArray []; OMetadata stored_metadata;
                                  OMission {| Mission.waypoints := 0%nat;
                                              Mission.currentWaypointIndex := 0;
                                              Mission.metadata := 1%nat |}]
      = Some (out, h') /\
    read_array h' out = Some [].
Proof.
  destruct mission_model_total as (Hempty & Hwp & Hadd & Hfmt & Hnil).
  assert (Hwf : wf_mission stored_heap stored_mission)
    by (exists stored_view; reflexivity).
  split; [apply Hempty|].
  split; [apply Hwp|].
  split; [apply Hadd; exact Hwf|].
  split; [apply Hfmt; exact Hwf|].
  eapply Hnil; reflexivity.
Defined.

(** ** Sequences of additions *)

Lemma appended_from_length n calls : length (appended_from n calls) = length calls.
Proof. revert n. induction calls as [|c calls IH]; intros n; cbn; [|rewrite IH]; trivial. Qed.

Lemma appended_from_lookup n calls i :
  appended_from n calls !! i =
    (fun c => waypoint_literal (Z.of_nat (n + i)) (call_lat c) (call_lon c))
      <$> calls !! i.
Proof.
  revert n i. induction calls as [|c calls IH]; intros n [|i]; cbn; trivial.
  - rewrite Nat.add_0_r. trivial.
  - rewrite IH, <- Nat.add_succ_comm. trivial.
Qed.

Lemma appended_from_seq n calls :
  Waypoint.seq <$> appended_from n calls = Z.of_nat <$> List.seq n (length calls).
Proof. revert n. induction calls as [|c calls IH]; intros n; cbn; [|rewrite IH]; trivial. Qed.

Lemma appended_from_x n calls : Waypoint.x <$> appended_from n calls = call_lat <$> calls.
Proof. revert n. induction calls as [|c calls IH]; intros n; cbn; [|rewrite IH]; trivial. Qed.

Lemma appended_from_y n calls : Waypoint.y <$> appended_from n calls = call_lon <$> calls.
Proof. revert n. induction calls as [|c calls IH]; intros n; cbn; [|rewrite IH]; trivial. Qed.

Lemma add_all_view calls : forall h m v,
  read_mission h m = Some v ->
  exists m' h' v',
    add_all calls m h = Some (m', h') /\
    h `prefix_of` h' /\
    read_mission h' m' = Some v' /\
    MissionView.waypoints v' =
      MissionView.waypoints v ++ appended_from (length (MissionView.waypoints v)) calls.
Proof.
  induction calls as [|[[now lat] lon] calls IH]; intros h m v Hv.
  - exists m, h, v. cbn. rewrite app_nil_r. repeat split; trivial.
  - destruct (addWaypointToMission_view now _ _ _ lat lon Hv)
      as (m1 & h1 & Hrun & Hgrow & _ & Hv1).
    destruct (IH _ _ _ Hv1) as (m' & h' & v' & Hrest & Hgrow' & Hv' & Hwps).
    exists m', h', v'. cbn [add_all]. unfold bind. rewrite Hrun.
    split; [exact Hrest|]. split; [etrans; eassumption|]. split; [exact Hv'|].
    rewrite Hwps. cbn [MissionView.waypoints appended_from call_lat call_lon].
    rewrite length_app, Nat.add_1_r, <- app_assoc. reflexivity.
Qed.

Lemma build_view now0 calls h :
  exists m h' v,
    build now0 calls h = Some (m, h') /\
    read_mission h' m = Some v /\
    MissionView.waypoints v = appended_from 0 calls.
Proof.
  destruct (createEmptyMission_view now0 h) as (m0 & h0 & Hrun & _ & _ & Hv0).
  destruct (add_all_view calls _ _ _ Hv0) as (m & h' & v & Hrest & _ & Hv & Hwps).
  exists m, h', v. unfold build, bind. rewrite Hrun.
  split; [exact Hrest|]. split; [exact Hv|]. exact Hwps.
Qed.

(** C1.  For every N >= 0, the mission built by N calls of
    [addWaypointToMission], one after the other, from [createEmptyMission()]
    has N waypoints, and the waypoint at index [i] has [seq = i] for every
    [i < N]: the [seq] values are 0, 1, ..., N-1 in array order. *)
Theorem build_seq_contiguous (h : heap) (now0 : string) (calls : list add_call) :
  exists m h' v,
    build now0 calls h = Some (m, h') /\
    read_mission h' m = Some v /\
    length (MissionView.waypoints v) = length calls /\
    (forall i, (i < length calls)%nat ->
       exists wp, MissionView.waypoints v !! i = Some wp /\
                  Waypoint.seq wp = Z.of_nat i) /\
    seq_contiguous (MissionView.waypoints v).
Proof.
  destruct (build_view now0 calls h) as (m & h' & v & Hrun & Hv & Hwps).
  exists m, h', v. split; [exact Hrun|]. split; [exact Hv|]. rewrite Hwps.
  split; [apply appended_from_length|]. split.
  - intros i Hi. rewrite appended_from_lookup.
    destruct (lookup_lt_is_Some_2 calls i Hi) as [c ->].
    eexists. split; reflexivity.
  - unfold seq_contiguous. rewrite appended_from_length. apply appended_from_seq.
Qed.

(** C6.  Coordinates survive the mission model: for every sequence of
    pairs (lat_i, lon_i), the mission built from an empty mission by the
    calls [addWaypointToMission(_, lat_i, lon_i)] has [waypoints[i].x] equal
    to lat_i and [waypoints[i].y] equal to lon_i for every [i] ([x] is the
    latitude and [y] the longitude). *)
Theorem build_keeps_coordinates (h : heap) (now0 : string) (calls : list add_call) :
  exists m h' v,
    build now0 calls h = Some (m, h') /\
    read_mission h' m = Some v /\
    Waypoint.x <$> MissionView.waypoints v = call_lat <$> calls /\
    Waypoint.y <$> MissionView.waypoints v = call_lon <$> calls /\
    (forall i c, calls !! i = Some c ->
       exists wp, MissionView.waypoints v !! i = Some wp /\
                  Waypoint.x wp = call_lat c /\ Waypoint.y wp = call_lon c).
Proof.
  destruct (build_view now0 calls h) as (m & h' & v & Hrun & Hv & Hwps).
  exists m, h', v. split; [exact Hrun|]. split; [exact Hv|]. rewrite Hwps.
  split; [apply appended_from_x|]. split; [apply appended_from_y|].
  intros i c Hc. rewrite appended_from_lookup, Hc.
  eexists. split; [reflexivity|]. split; reflexivity.
Qed.

(** ** The missions the frontend holds *)

Lemma add_all_reachable calls : forall h m m' h',
  reachable h m -> add_all calls m h = Some (m', h') -> reachable h' m'.
Proof.
  induction calls as [|[[now lat] lon] calls IH]; intros h m m' h' Hreach.
  - cbn. unfold ret. intros [= <- <-]. exact Hreach.
  - cbn [add_all]. unfold bind.
    destruct (addWaypointToMission now m lat lon h) as [[m1 h1]|] eqn:Hrun;
      [|discriminate].
    apply IH. exact (reach_add _ _ _ _ _ _ _ Hreach Hrun).
Qed.

Lemma build_reachable now0 calls h m h' :
  build now0 calls h = Some (m, h') -> reachable h' m.
Proof.
  unfold build, bind.
  destruct (createEmptyMission now0 h) as [[m0 h0]|] eqn:Hrun; [|discriminate].
  apply add_all_reachable. exact (reach_empty _ _ _ _ Hrun).
Qed.

(** The [seq] invariant holds of every mission the frontend can hold, so
    the invariant assumed of the mission handed to [missionToMavlinkFormat]
    is met by every mission the program builds. *)
Lemma reachable_seq_contiguous (h : heap) (m : loc) :
  reachable h m ->
  exists v, read_mission h m = Some v /\ seq_contiguous (MissionView.waypoints v).
Proof.
  induction 1 as [h now m h' Hrun
                 |h m now lat lon m' h' Hreach (v & Hv & Hseq) Hrun
                 |h m h' Hreach (v & Hv & Hseq) Hgrow].
  - destruct (createEmptyMission_view now h) as (m0 & h0 & Hrun0 & _ & _ & Hv0).
    rewrite Hrun in Hrun0. injection Hrun0 as <- <-.
    eexists. split; [exact Hv0|]. reflexivity.
  - destruct (addWaypointToMission_view now _ _ _ lat lon Hv)
      as (m1 & h1 & Hrun1 & _ & _ & Hv1).
    rewrite Hrun in Hrun1. injection Hrun1 as <- <-.
    eexists. split; [exact Hv1|]. cbn [MissionView.waypoints].
    unfold seq_contiguous in *.
    rewrite fmap_app, length_app, Nat.add_1_r, seq_S, fmap_app, Hseq.
    reflexivity.
  - exists v. split; [exact (read_mission_grow Hgrow _ _ Hv)|exact Hseq].
Qed.

(** C7.  Every waypoint of a mission held by the frontend has
    [current = false]: for every mission reachable from
    [createEmptyMission()] by calls of [addWaypointToMission], every element
    of its waypoint array has [current = false]. *)
Theorem reachable_current_false (h : heap) (m : loc) :
  reachable h m ->
  exists v,
    read_mission h m = Some v /\
    Forall (fun wp => Waypoint.current wp = false) (MissionView.waypoints v).
Proof.
  induction 1 as [h now m h' Hrun
                 |h m now lat lon m' h' Hreach (v & Hv & Hall) Hrun
                 |h m h' Hreach (v & Hv & Hall) Hgrow].
  - destruct (createEmptyMission_view now h) as (m0 & h0 & Hrun0 & _ & _ & Hv0).
    rewrite Hrun in Hrun0. injection Hrun0 as <- <-.
    eexists. split; [exact Hv0|]. constructor.
  - destruct (addWaypointToMission_view now _ _ _ lat lon Hv)
      as (m1 & h1 & Hrun1 & _ & _ & Hv1).
    rewrite Hrun in Hrun1. injection Hrun1 as <- <-.
    eexists. split; [exact Hv1|]. cbn [MissionView.waypoints].
    apply Forall_app. split; [exact Hall|]. repeat constructor.
  - exists v. split; [exact (read_mission_grow Hgrow _ _ Hv)|exact Hall].
Qed.

Lemma reachable_current_false_witness :
  reachable two_clicks_heap two_clicks_mission /\
  exists v,
    read_mission two_clicks_heap two_clicks_mission = Some v /\
    Forall (fun wp => Waypoint.current wp = false) (MissionView.waypoints v).
Proof.
  assert (Hreach : reachable two_clicks_heap two_clicks_mission)
    by (apply (build_reachable t0 [goa; panaji] []); reflexivity).
  split; [exact Hreach|].
  apply (reachable_current_false two_clicks_heap two_clicks_mission). exact Hreach.
Defined.

(** The same round trip read with [===], as a test would write it: it holds
    for every coordinate that is a number; a NaN is stored as it is but
    compares unequal to itself. *)
Lemma build_keeps_coordinates_strict (h : heap) (now0 : string) (calls : list add_call) :
  exists m h' v,
    build now0 calls h = Some (m, h') /\
    read_mission h' m = Some v /\
    forall i c, calls !! i = Some c ->
      exists wp, MissionView.waypoints v !! i = Some wp /\
        (is_nan (call_lat c) = false -> strict_equal (Waypoint.x wp) (call_lat c) = true) /\
        (is_nan (call_lon c) = false -> strict_equal (Waypoint.y wp) (call_lon c) = true).
Proof.
  destruct (build_view now0 calls h) as (m & h' & v & Hrun & Hv & Hwps).
  exists m, h', v. split; [exact Hrun|]. split; [exact Hv|]. rewrite Hwps.
  intros i c Hc. rewrite appended_from_lookup, Hc.
  eexists. split; [reflexivity|]. cbn. unfold strict_equal, is_nan.
  split; intros Hnan; apply negb_false_iff in Hnan; exact Hnan.
Qed.

Example nan_is_not_strictly_equal_to_itself : strict_equal nan nan = false.
Proof. reflexivity. Qed.

(** * Further properties of the mission model *)

(** ** Fresh objects and sharing *)

(** [createEmptyMission()] returns a new object (its address was free) that
    reads as a mission without waypoints, with [currentWaypointIndex = 0],
    the name "USV Mission" and [createdAt = updatedAt], the clock reading of
    the call; the objects that existed before are unchanged. *)
Theorem createEmptyMission_fresh (now : string) (h : heap) :
  exists m h' v,
    createEmptyMission now h = Some (m, h') /\
    h `prefix_of` h' /\
    h !! m = None /\
    read_mission h' m = Some v /\
    MissionView.waypoints v = [] /\
    MissionView.currentWaypointIndex v = 0 /\
    MissionMetadata.name (MissionView.metadata v) = "USV Mission" /\
    MissionMetadata.createdAt (MissionView.metadata v) = now /\
    MissionMetadata.updatedAt (MissionView.metadata v) = now.
Proof.
  destruct (createEmptyMission_view now h) as (m & h' & Hrun & Hgrow & Hnew & Hv).
  eexists m, h', _. split; [exact Hrun|]. split; [exact Hgrow|].
  split; [exact Hnew|]. split; [exact Hv|]. repeat split.
Qed.

Lemma lookup_marked_array h ws :
  (h ++ (OWaypoint <$> marked_from 0 ws)
     ++ [OArray (List.seq (length h) (length ws))]) !! (length h + length ws)%nat =
  Some (OArray (List.seq (length h) (length ws))).
Proof.
  rewrite app_assoc. apply list_lookup_middle.
  rewrite length_app, length_fmap, marked_from_length. reflexivity.
Qed.

(** [missionToMavlinkFormat] clones: the array it returns and every element
    of that array are new objects, pairwise distinct, and none of them is one
    of the waypoint objects of the mission, so that writing to the result
    cannot reach the mission. *)
Theorem missionToMavlinkFormat_clones
  (h : heap) (m : loc) (mo : Mission.t) (elems : list loc) (v : MissionView.t) :
  h !! m = Some (OMission mo) ->
  h !! Mission.waypoints mo = Some (OArray elems) ->
  read_mission h m = Some v ->
  exists out h' outs,
    missionToMavlinkFormat m h = Some (out, h') /\
    h' !! out = Some (OArray outs) /\
    length outs = length elems /\
    h !! out = None /\
    Forall (fun l => h !! l = None) outs /\
    NoDup outs /\
    out <> Mission.waypoints mo /\
    (forall l, l ∈ outs -> l ∉ elems).
Proof.
  intros Hm Ha Hv.
  destruct (read_mission_inv _ _ _ Hv) as (mo' & elems' & Hm' & Ha' & Hw & _).
  rewrite Hm in Hm'. injection Hm' as <-.
  rewrite Ha in Ha'. injection Ha' as <-.
  assert (Hlen : length elems = length (MissionView.waypoints v))
    by (apply mapM_Some, Forall2_length in Hw; exact Hw).
  eexists _, _, _.
  split; [exact (missionToMavlinkFormat_run _ _ _ _ _ Hm Ha Hw)|].
  split; [apply lookup_marked_array|].
  assert (Hfresh : Forall (fun l => h !! l = None)
                     (List.seq (length h) (length (MissionView.waypoints v)))).
  { apply Forall_forall. intros l Hl. apply elem_of_seq in Hl.
    apply lookup_ge_None. lia. }
  split; [rewrite length_seq; congruence|].
  split; [apply lookup_ge_None; lia|].
  split; [exact Hfresh|].
  split; [apply NoDup_seq|].
  split.
  - intros Heq. apply lookup_lt_Some in Ha. lia.
  - intros l Hl Hin. rewrite Forall_forall in Hfresh. specialize (Hfresh l Hl).
    apply mapM_Some in Hw. apply list_elem_of_lookup in Hin as [i Hi].
    destruct (Forall2_lookup_l _ _ _ i l Hw Hi) as (w & _ & Hread).
    unfold read_waypoint in Hread. rewrite Hfresh in Hread. discriminate.
Qed.

Lemma missionToMavlinkFormat_clones_witness :
  (stored_heap !! stored_mission =
     Some (OMission {| Mission.waypoints := 2%nat;
                       Mission.currentWaypointIndex := 1;
                       Mission.metadata := 3%nat |}) /\
   stored_heap !! 2%nat = Some (OArray [0; 1]%nat) /\
   read_mission stored_heap stored_mission = Some stored_view) /\
  exists out h' outs,
    missionToMavlinkFormat stored_mission stored_heap = Some (out, h') /\
    h' !! out = Some (OArray outs) /\
    length outs = length [0; 1]%nat /\
    stored_heap !! out = None /\
    Forall (fun l => stored_heap !! l = None) outs /\
    NoDup outs /\
    out <> 2%nat /\
    (forall l, l ∈ outs -> l ∉ [0; 1]%nat).
Proof.
  split; [repeat split|].
  apply (missionToMavlinkFormat_clones stored_heap stored_mission
           {| Mission.waypoints := 2%nat;
              Mission.currentWaypointIndex := 1;
              Mission.metadata := 3%nat |} [0; 1]%nat stored_view);
    reflexivity.
Defined.

(** Calling [missionToMavlinkFormat] twice on the same mission gives two
    different arrays whose contents are equal (and are, position by position,
    the waypoints of the mission with the flag of position 0 set), and
    nothing is shared between the two results: the array and the elements of
    the second result are objects that did not exist after the first call, no
    element of one result is an element of the other or a waypoint object of
    the mission, and the second call leaves every object of the first result
    as it was. *)
Theorem missionToMavlinkFormat_twice
  (h : heap) (m : loc) (mo : Mission.t) (elems : list loc) (v : MissionView.t) :
  h !! m = Some (OMission mo) ->
  h !! Mission.waypoints mo = Some (OArray elems) ->
  read_mission h m = Some v ->
  exists out1 h1 out2 h2 outs1 outs2 ws,
    missionToMavlinkFormat m h = Some (out1, h1) /\
    missionToMavlinkFormat m h1 = Some (out2, h2) /\
    h1 `prefix_of` h2 /\
    out1 <> out2 /\
    h1 !! out1 = Some (OArray outs1) /\
    h2 !! out1 = Some (OArray outs1) /\
    h2 !! out2 = Some (OArray outs2) /\
    h1 !! out2 = None /\
    Forall (fun l => h1 !! l = None) outs2 /\
    (forall l, l ∈ outs1 -> l ∉ outs2) /\
    (forall l, l ∈ outs1 -> l ∉ elems) /\
    (forall l, l ∈ outs2 -> l ∉ elems) /\
    read_array h1 out1 = Some ws /\
    read_array h2 out1 = Some ws /\
    read_array h2 out2 = Some ws /\
    length ws = length (MissionView.waypoints v) /\
    (forall i w, ws !! i = Some w ->
       exists wp, MissionView.waypoints v !! i = Some wp /\
                  same_but_current w wp /\
                  (Waypoint.current w = true <-> i = 0%nat)).
Proof.
  intros Hm Ha Hv.
  destruct (read_mission_inv _ _ _ Hv) as (mo' & elems' & Hm' & Ha' & Hw & _).
  rewrite Hm in Hm'. injection Hm' as <-.
  rewrite Ha in Ha'. injection Ha' as <-.
  set (wps := MissionView.waypoints v) in *.
  set (h1 := h ++ (OWaypoint <$> marked_from 0 wps)
               ++ [OArray (List.seq (length h) (length wps))]).
  assert (Hgrow1 : h `prefix_of` h1) by (apply prefix_app_r; reflexivity).
  assert (Hlen1 : length h1 = (length h + length wps + 1)%nat).
  { unfold h1. rewrite !length_app, length_fmap, marked_from_length. cbn. lia. }
  pose proof (lookup_grow Hgrow1 _ _ Hm) as Hm1.
  pose proof (lookup_grow Hgrow1 _ _ Ha) as Ha1.
  pose proof (read_elems_grow Hgrow1 _ _ Hw) as Hw1.
  set (h2 := h1 ++ (OWaypoint <$> marked_from 0 wps)
                ++ [OArray (List.seq (length h1) (length wps))]).
  assert (Hgrow2 : h1 `prefix_of` h2) by (apply prefix_app_r; reflexivity).
  assert (Hold : forall l, l ∈ elems -> (l < length h)%nat).
  { intros l Hin. apply list_elem_of_lookup in Hin as [i Hi].
    apply mapM_Some in Hw.
    destruct (Forall2_lookup_l _ _ _ i l Hw Hi) as (w & _ & Hread).
    unfold read_waypoint in Hread.
    destruct (h !! l) eqn:Hl; [|discriminate].
    apply lookup_lt_Some in Hl. exact Hl. }
  exists (length h + length wps)%nat, h1, (length h1 + length wps)%nat, h2,
    (List.seq (length h) (length wps)), (List.seq (length h1) (length wps)),
    (marked_from 0 wps).
  split; [exact (missionToMavlinkFormat_run _ _ _ _ _ Hm Ha Hw)|].
  split; [exact (missionToMavlinkFormat_run _ _ _ _ _ Hm1 Ha1 Hw1)|].
  split; [exact Hgrow2|].
  split; [lia|].
  split; [apply lookup_marked_array|].
  split; [apply (lookup_grow Hgrow2), lookup_marked_array|].
  split; [apply lookup_marked_array|].
  split; [apply lookup_ge_None; lia|].
  split.
  { apply Forall_forall. intros l Hl. apply elem_of_seq in Hl.
    apply lookup_ge_None. lia. }
  split.
  { intros l Hl1 Hl2. apply elem_of_seq in Hl1. apply elem_of_seq in Hl2. lia. }
  split.
  { intros l Hl Hin. apply elem_of_seq in Hl. specialize (Hold l Hin). lia. }
  split.
  { intros l Hl Hin. apply elem_of_seq in Hl. specialize (Hold l Hin). lia. }
  split; [apply read_marked_array|].
  split; [apply (read_array_grow Hgrow2), read_marked_array|].
  split; [apply read_marked_array|].
  split; [apply marked_from_length|].
  intros i w. rewrite marked_from_lookup.
  destruct (wps !! i) as [wp|]; [|discriminate].
  intros [= <-]. exists wp. split; [reflexivity|].
  split; [repeat split|]. cbn. apply Nat.eqb_eq.
Qed.

Lemma missionToMavlinkFormat_twice_witness :
  (stored_heap !! stored_mission =
     Some (OMission {| Mission.waypoints := 2%nat;
                       Mission.currentWaypointIndex := 1;
                       Mission.metadata := 3%nat |}) /\
   stored_heap !! 2%nat = Some (OArray [0; 1]%nat) /\
   read_mission stored_heap stored_mission = Some stored_view) /\
  exists out1 h1 out2 h2 outs1 outs2 ws,
    missionToMavlinkFormat stored_mission stored_heap = Some (out1, h1) /\
    missionToMavlinkFormat stored_mission h1 = Some (out2, h2) /\
    h1 `prefix_of` h2 /\
    out1 <> out2 /\
    h1 !! out1 = Some (OArray outs1) /\
    h2 !! out1 = Some (OArray outs1) /\
    h2 !! out2 = Some (OArray outs2) /\
    h1 !! out2 = None /\
    Forall (fun l => h1 !! l = None) outs2 /\
    (forall l, l ∈ outs1 -> l ∉ outs2) /\
    (forall l, l ∈ outs1 -> l ∉ [0; 1]%nat) /\
    (forall l, l ∈ outs2 -> l ∉ [0; 1]%nat) /\
    read_array h1 out1 = Some ws /\
    read_array h2 out1 = Some ws /\
    read_array h2 out2 = Some ws /\
    length ws = length (MissionView.waypoints stored_view) /\
    (forall i w, ws !! i = Some w ->
       exists wp, MissionView.waypoints stored_view !! i = Some wp /\
                  same_but_current w wp /\
                  (Waypoint.current w = true <-> i = 0%nat)).
Proof.
  split; [repeat split|].
  apply (missionToMavlinkFormat_twice stored_heap stored_mission
           {| Mission.waypoints := 2%nat;
              Mission.currentWaypointIndex := 1;
              Mission.metadata := 3%nat |} [0; 1]%nat stored_view);
    reflexivity.
Defined.

(** [addWaypointToMission] copies shallowly: the mission object, the array
    and the metadata object of the result are new, the new array holds the
    references of the old array followed by the new waypoint, and the old
    array and metadata objects still hold what they held.  The existing
    waypoint objects are shared between the two missions. *)
Theorem addWaypointToMission_shallow_copy
  (now : string) (h : heap) (m : loc) (mo : Mission.t) (elems : list loc)
  (md : MissionMetadata.t) (lat lon : float) :
  h !! m = Some (OMission mo) ->
  h !! Mission.waypoints mo = Some (OArray elems) ->
  h !! Mission.metadata mo = Some (OMetadata md) ->
  exists m' h' mo' newWaypoint,
    addWaypointToMission now m lat lon h = Some (m', h') /\
    h' !! m' = Some (OMission mo') /\
    h' !! Mission.waypoints mo' = Some (OArray (elems ++ [newWaypoint])) /\
    h !! newWaypoint = None /\
    h !! m' = None /\
    h !! Mission.waypoints mo' = None /\
    h !! Mission.metadata mo' = None /\
    h' !! Mission.waypoints mo = Some (OArray elems) /\
    h' !! Mission.metadata mo = Some (OMetadata md).
Proof.
  intros Hm Ha Hmd. eexists _, _, _, _.
  split; [exact (addWaypointToMission_run _ _ _ _ _ now lat lon Hm Ha Hmd)|].
  split; [rewrite (lookup_fresh h _ 3) by lia; reflexivity|].
  cbn [Mission.waypoints Mission.metadata].
  split; [rewrite (lookup_fresh h _ 1) by lia; reflexivity|].
  split; [apply lookup_ge_None; lia|].
  split; [apply lookup_ge_None; lia|].
  split; [apply lookup_ge_None; lia|].
  split; [apply lookup_ge_None; lia|].
  split; apply lookup_app_l_Some; assumption.
Qed.

Lemma addWaypointToMission_shallow_copy_witness :
  (stored_heap !! stored_mission =
     Some (OMission {| Mission.waypoints := 2%nat;
                       Mission.currentWaypointIndex := 1;
                       Mission.metadata := 3%nat |}) /\
   stored_heap !! 2%nat = Some (OArray [0; 1]%nat) /\
   stored_heap !! 3%nat = Some (OMetadata stored_metadata)) /\
  exists m' h' mo' newWaypoint,
    addWaypointToMission t0 stored_mission 15.51 73.84 stored_heap = Some (m', h') /\
    h' !! m' = Some (OMission mo') /\
    h' !! Mission.waypoints mo' = Some (OArray ([0; 1]%nat ++ [newWaypoint])) /\
    stored_heap !! newWaypoint = None /\
    stored_heap !! m' = None /\
    stored_heap !! Mission.waypoints mo' = None /\
    stored_heap !! Mission.metadata mo' = None /\
    h' !! 2%nat = Some (OArray [0; 1]%nat) /\
    h' !! 3%nat = Some (OMetadata stored_metadata).
Proof.
  split; [repeat split|].
  apply (addWaypointToMission_shallow_copy t0 stored_heap stored_mission
           {| Mission.waypoints := 2%nat;
              Mission.currentWaypointIndex := 1;
              Mission.metadata := 3%nat |} [0; 1]%nat stored_metadata);
    reflexivity.
Defined.

(** ** Building and uploading *)

Lemma marked_from_seq idx ws :
  Waypoint.seq <$> marked_from idx ws = Waypoint.seq <$> ws.
Proof. revert idx. induction ws as [|w ws IH]; intros idx; cbn; [|rewrite IH]; trivial. Qed.

Lemma marked_from_x idx ws : Waypoint.x <$> marked_from idx ws = Waypoint.x <$> ws.
Proof. revert idx. induction ws as [|w ws IH]; intros idx; cbn; [|rewrite IH]; trivial. Qed.

Lemma marked_from_y idx ws : Waypoint.y <$> marked_from idx ws = Waypoint.y <$> ws.
Proof. revert idx. induction ws as [|w ws IH]; intros idx; cbn; [|rewrite IH]; trivial. Qed.

Lemma marked_from_current idx ws :
  Waypoint.current <$> marked_from idx ws =
    (fun i => Nat.eqb i 0) <$> List.seq idx (length ws).
Proof. revert idx. induction ws as [|w ws IH]; intros idx; cbn; [|rewrite IH]; trivial. Qed.

(** Planning and then converting: for every sequence of clicks, the array
    that [missionToMavlinkFormat] makes of the mission built from them lists
    the clicked coordinates in click order, numbered 0, 1, ..., N-1, with the
    [current] flag on the first item only. *)
Theorem build_then_format (h : heap) (now0 : string) (calls : list add_call) :
  exists m h1 out h2 ws,
    build now0 calls h = Some (m, h1) /\
    missionToMavlinkFormat m h1 = Some (out, h2) /\
    read_array h2 out = Some ws /\
    Waypoint.seq <$> ws = Z.of_nat <$> List.seq 0 (length calls) /\
    Waypoint.current <$> ws = (fun i => Nat.eqb i 0) <$> List.seq 0 (length calls) /\
    Waypoint.x <$> ws = call_lat <$> calls /\
    Waypoint.y <$> ws = call_lon <$> calls.
Proof.
  destruct (build_view now0 calls h) as (m & h1 & v & Hrun & Hv & Hwps).
  destruct (missionToMavlinkFormat_view _ _ _ Hv) as (out & h2 & Hfmt & _ & _ & Hout).
  exists m, h1, out, h2, (marked_from 0 (MissionView.waypoints v)).
  split; [exact Hrun|]. split; [exact Hfmt|]. split; [exact Hout|].
  rewrite marked_from_seq, marked_from_current, marked_from_x, marked_from_y, Hwps.
  rewrite appended_from_length.
  split; [apply appended_from_seq|]. split; [reflexivity|].
  split; [apply appended_from_x|apply appended_from_y].
Qed.

Lemma last_cons_default {A : Type} (l : list A) (a d : A) :
  List.last (a :: l) d = List.last l a.
Proof.
  revert a d. induction l as [|b l IH]; intros a d; [reflexivity|].
  change (List.last (a :: b :: l) d) with (List.last (b :: l) d).
  rewrite !IH. reflexivity.
Qed.

Lemma add_all_metadata calls : forall h m v,
  read_mission h m = Some v ->
  exists m' h' v',
    add_all calls m h = Some (m', h') /\
    read_mission h' m' = Some v' /\
    MissionView.currentWaypointIndex v' = MissionView.currentWaypointIndex v /\
    MissionMetadata.name (MissionView.metadata v') =
      MissionMetadata.name (MissionView.metadata v) /\
    MissionMetadata.createdAt (MissionView.metadata v') =
      MissionMetadata.createdAt (MissionView.metadata v) /\
    MissionMetadata.updatedAt (MissionView.metadata v') =
      List.last (call_now <$> calls) (MissionMetadata.updatedAt (MissionView.metadata v)).
Proof.
  induction calls as [|[[now lat] lon] calls IH]; intros h m v Hv.
  - exists m, h, v. cbn. repeat split; trivial.
  - destruct (addWaypointToMission_view now _ _ _ lat lon Hv)
      as (m1 & h1 & Hrun & _ & _ & Hv1).
    destruct (IH _ _ _ Hv1) as (m' & h' & v' & Hrest & Hv' & Hc & Hn & Hcr & Hup).
    exists m', h', v'. cbn [add_all]. unfold bind. rewrite Hrun.
    split; [exact Hrest|]. split; [exact Hv'|].
    rewrite Hc, Hn, Hcr, Hup. cbn [fmap list_fmap call_now].
    rewrite last_cons_default. repeat split.
Qed.

(** Timestamps of a built mission: [createdAt] is the clock reading of
    [createEmptyMission()] and is never changed by an addition; [updatedAt]
    is the clock reading of the last addition ([createdAt] when nothing was
    added); the name stays "USV Mission" and [currentWaypointIndex] stays 0. *)
Theorem build_metadata (h : heap) (now0 : string) (calls : list add_call) :
  exists m h' v,
    build now0 calls h = Some (m, h') /\
    read_mission h' m = Some v /\
    MissionMetadata.createdAt (MissionView.metadata v) = now0 /\
    MissionMetadata.updatedAt (MissionView.metadata v) =
      List.last (call_now <$> calls) now0 /\
    MissionMetadata.name (MissionView.metadata v) = "USV Mission" /\
    MissionView.currentWaypointIndex v = 0.
Proof.
  destruct (createEmptyMission_view now0 h) as (m0 & h0 & Hrun & _ & _ & Hv0).
  destruct (add_all_metadata calls _ _ _ Hv0)
    as (m & h' & v & Hrest & Hv & Hc & Hn & Hcr & Hup).
  exists m, h', v. unfold build, bind. rewrite Hrun.
  split; [exact Hrest|]. split; [exact Hv|].
  rewrite Hcr, Hup, Hn, Hc. repeat split.
Qed.

(** ** Invariants of the missions the frontend holds *)

Lemma reachable_seq_contiguous_witness :
  reachable two_clicks_heap two_clicks_mission /\
  exists v,
    read_mission two_clicks_heap two_clicks_mission = Some v /\
    seq_contiguous (MissionView.waypoints v).
Proof.
  assert (Hreach : reachable two_clicks_heap two_clicks_mission)
    by (apply (build_reachable t0 [goa; panaji] []); reflexivity).
  split; [exact Hreach|].
  apply (reachable_seq_contiguous two_clicks_heap two_clicks_mission). exact Hreach.
Defined.

(** Every waypoint of a mission the frontend can hold carries the defaults
    of [createWaypoint] in every field other than [seq], [x] and [y] (so
    [z = 0], the frame is MAV_FRAME_GLOBAL_RELATIVE_ALT, the command is
    MAV_CMD_NAV_WAYPOINT, the acceptance radius is 2), and the mission keeps
    [currentWaypointIndex = 0] and the name "USV Mission". *)
Theorem reachable_defaults (h : heap) (m : loc) :
  reachable h m ->
  exists v,
    read_mission h m = Some v /\
    MissionView.currentWaypointIndex v = 0 /\
    MissionMetadata.name (MissionView.metadata v) = "USV Mission" /\
    Forall (fun wp => wp = waypoint_literal (Waypoint.seq wp) (Waypoint.x wp) (Waypoint.y wp))
           (MissionView.waypoints v).
Proof.
  induction 1 as [h now m h' Hrun
                 |h m now lat lon m' h' Hreach (v & Hv & Hc & Hn & Hall) Hrun
                 |h m h' Hreach (v & Hv & Hc & Hn & Hall) Hgrow].
  - destruct (createEmptyMission_view now h) as (m0 & h0 & Hrun0 & _ & _ & Hv0).
    rewrite Hrun in Hrun0. injection Hrun0 as <- <-.
    eexists. split; [exact Hv0|]. repeat split. constructor.
  - destruct (addWaypointToMission_view now _ _ _ lat lon Hv)
      as (m1 & h1 & Hrun1 & _ & _ & Hv1).
    rewrite Hrun in Hrun1. injection Hrun1 as <- <-.
    eexists. split; [exact Hv1|]. cbn.
    split; [exact Hc|]. split; [exact Hn|].
    apply Forall_app. split; [exact Hall|]. repeat constructor.
  - exists v. split; [exact (read_mission_grow Hgrow _ _ Hv)|]. auto.
Qed.

Lemma reachable_defaults_witness :
  reachable two_clicks_heap two_clicks_mission /\
  exists v,
    read_mission two_clicks_heap two_clicks_mission = Some v /\
    MissionView.currentWaypointIndex v = 0 /\
    MissionMetadata.name (MissionView.metadata v) = "USV Mission" /\
    Forall (fun wp => wp = waypoint_literal (Waypoint.seq wp) (Waypoint.x wp) (Waypoint.y wp))
           (MissionView.waypoints v).
Proof.
  assert (Hreach : reachable two_clicks_heap two_clicks_mission)
    by (apply (build_reachable t0 [goa; panaji] []); reflexivity).
  split; [exact Hreach|].
  apply (reachable_defaults two_clicks_heap two_clicks_mission). exact Hreach.
Defined.

(** * The application *)

(** ** Reading the planning state *)

Lemma waypoints_length_run h m v :
  read_mission h m = Some v ->
  waypoints_length m h = Some (Z.of_nat (length (MissionView.waypoints v)), h).
Proof.
  intros Hv. destruct (read_mission_inv _ _ _ Hv) as (mo & elems & Hm & Ha & Hw & _).
  unfold waypoints_length, bind, get_mission, get_array, ret.
  rewrite Hm. cbn beta iota. rewrite Ha. cbn beta iota.
  apply mapM_Some, Forall2_length in Hw. rewrite Hw. reflexivity.
Qed.

Lemma path_of_length wps : length (path_of wps) = length wps.
Proof. apply length_fmap. Qed.

Lemma mission_path_read h m v :
  read_mission h m = Some v -> mission_path h m = Some (path_of (MissionView.waypoints v)).
Proof. intros Hv. unfold mission_path. rewrite Hv. reflexivity. Qed.

Lemma mission_path_inv h m p :
  mission_path h m = Some p ->
  exists v, read_mission h m = Some v /\ p = path_of (MissionView.waypoints v).
Proof.
  unfold mission_path. destruct (read_mission h m) as [v|]; [|discriminate].
  intros [= <-]. eauto.
Qed.

Section PlanningGrowth.

Context {h h' : heap} (Hgrow : h `prefix_of` h').

Lemma mission_path_grow m p : mission_path h m = Some p -> mission_path h' m = Some p.
Proof.
  intros Hp. destruct (mission_path_inv _ _ _ Hp) as (v & Hv & ->).
  apply mission_path_read. exact (read_mission_grow Hgrow _ _ Hv).
Qed.

Lemma entry_counted_grow e : entry_counted h e -> entry_counted h' e.
Proof.
  intros (v & Hv & Hc & Hpos). exists v.
  split; [exact (read_mission_grow Hgrow _ _ Hv)|]. auto.
Qed.

Lemma entry_matches_grow e eo : entry_matches h e eo -> entry_matches h' e eo.
Proof.
  intros (Hi & Ht & Hc & Hs & Hm & Hp).
  repeat split; trivial. exact (mission_path_grow _ _ Hp).
Qed.

Lemma log_counted_grow log : Forall (entry_counted h) log -> Forall (entry_counted h') log.
Proof. intros Hall. eapply Forall_impl; [exact Hall|]. exact entry_counted_grow. Qed.

Lemma log_matches_grow log logo :
  Forall2 (entry_matches h) log logo -> Forall2 (entry_matches h') log logo.
Proof. intros Hall. eapply Forall2_impl; [exact Hall|]. exact entry_matches_grow. Qed.

End PlanningGrowth.

(** ** One action *)

Lemma handleAddWaypoint_run now position h s v :
  read_mission h (App.mission s) = Some v ->
  exists m' h',
    handleAddWaypoint now position s h =
      Some ({| App.mission := m';
               App.addWaypointMode := false;
               App.missionLog := App.missionLog s;
               App.toasts :=
                 App.toasts s ++
                 [toast_success
                    ("Waypoint "
                     +:+ pretty (Z.of_nat (length (MissionView.waypoints v)) + 1)
                     +:+ " added")] |}, h') /\
    h `prefix_of` h' /\
    addWaypointToMission now (App.mission s) (fst position) (snd position) h = Some (m', h') /\
    read_mission h' m' =
      Some {| MissionView.waypoints :=
                MissionView.waypoints v ++
                [waypoint_literal (Z.of_nat (length (MissionView.waypoints v)))
                   (fst position) (snd position)];
              MissionView.currentWaypointIndex := MissionView.currentWaypointIndex v;
              MissionView.metadata :=
                {| MissionMetadata.name :=
                     MissionMetadata.name (MissionView.metadata v);
                   MissionMetadata.createdAt :=
                     MissionMetadata.createdAt (MissionView.metadata v);
                   MissionMetadata.updatedAt := now |} |}.
Proof.
  intros Hv.
  destruct (addWaypointToMission_view now _ _ _ (fst position) (snd position) Hv)
    as (m' & h' & Hrun & Hgrow & _ & Hv').
  exists m', h'. unfold handleAddWaypoint, bind. rewrite Hrun.
  rewrite (waypoints_length_run _ _ _ (read_mission_grow Hgrow _ _ Hv)).
  repeat split; trivial.
Qed.

Lemma handleSendWaypoints_run inp h s v :
  read_mission h (App.mission s) = Some v ->
  handleSendWaypoints inp s h =
    Some (let n := Z.of_nat (length (MissionView.waypoints v)) in
          if 0 <? n then
            {| App.mission := App.mission s;
               App.addWaypointMode := App.addWaypointMode s;
               App.missionLog :=
                 {| MissionLogEntry.id := date_now inp;
                    MissionLogEntry.timestamp := locale_time inp;
                    MissionLogEntry.mission := App.mission s;
                    MissionLogEntry.waypointCount := n;
                    MissionLogEntry.status :=
                      if number_gt (random1 inp) 0.2 then Accepted else Rejected;
                    MissionLogEntry.message :=
                      if number_gt (random2 inp) 0.2
                      then accepted_message n n else rejected_message |}
                 :: App.missionLog s;
               App.toasts :=
                 App.toasts s ++
                 [toast_success (pretty n +:+ " waypoints sent to USV via Pixhawk")] |}
          else s, h).
Proof.
  intros Hv. pose proof (waypoints_length_run _ _ _ Hv) as Hlen.
  unfold handleSendWaypoints, bind at 1. rewrite Hlen. cbn zeta.
  destruct (0 <? Z.of_nat (length (MissionView.waypoints v))); [|reflexivity].
  unfold bind at 1. rewrite Hlen.
  destruct (number_gt (random2 inp) 0.2).
  - unfold bind, ret. rewrite !Hlen. reflexivity.
  - unfold bind, ret. rewrite !Hlen. reflexivity.
Qed.

Lemma App_step_planned a h s so :
  reachable h (App.mission s) ->
  Forall (entry_counted h) (App.missionLog s) ->
  state_matches h s so ->
  exists s' h',
    App_step a s h = Some (s', h') /\
    h `prefix_of` h' /\
    reachable h' (App.mission s') /\
    Forall (entry_counted h') (App.missionLog s') /\
    state_matches h' s' (OldApp.step a so).
Proof.
  intros Hreach Hlog (Hpath & Hmode & Htoasts & Hentries).
  destruct (mission_path_inv _ _ _ Hpath) as (v & Hv & Hwps).
  assert (Hlen : OldApp.length_of so = Z.of_nat (length (MissionView.waypoints v)))
    by (unfold OldApp.length_of; rewrite Hwps, path_of_length; reflexivity).
  destruct a as [now|mode|now position|now|inp]; cbn [App_step OldApp.step].
  - (* Render *)
    destruct (createEmptyMission_view now h) as (m0 & h0 & Hrun & Hgrow & _ & _).
    exists s, h0. unfold bind. rewrite Hrun.
    split; [reflexivity|]. split; [exact Hgrow|].
    split; [exact (reach_grow _ _ _ Hreach Hgrow)|].
    split; [exact (log_counted_grow Hgrow _ Hlog)|].
    split; [exact (mission_path_grow Hgrow _ _ Hpath)|].
    split; [exact Hmode|]. split; [exact Htoasts|].
    exact (log_matches_grow Hgrow _ _ Hentries).
  - (* setAddWaypointMode *)
    eexists _, h. split; [reflexivity|]. split; [reflexivity|].
    split; [exact Hreach|]. split; [exact Hlog|].
    split; [exact Hpath|]. split; [reflexivity|]. split; [exact Htoasts|exact Hentries].
  - (* handleAddWaypoint *)
    destruct (handleAddWaypoint_run now position _ _ _ Hv)
      as (m' & h' & Hrun & Hgrow & Hadd & Hv').
    eexists _, h'. split; [exact Hrun|]. split; [exact Hgrow|].
    split; [exact (reach_add _ _ _ _ _ _ _ Hreach Hadd)|].
    split; [exact (log_counted_grow Hgrow _ Hlog)|].
    unfold state_matches.
    cbn [App.mission App.addWaypointMode App.toasts App.missionLog].
    unfold OldApp.handleAddWaypoint.
    cbn [OldApp.waypoints OldApp.addWaypointMode OldApp.toasts OldApp.missionLog].
    split.
    + rewrite (mission_path_read _ _ _ Hv'). cbn [MissionView.waypoints].
      unfold path_of. rewrite fmap_app. fold (path_of (MissionView.waypoints v)).
      rewrite <- Hwps. destruct position; reflexivity.
    + split; [reflexivity|]. split; [rewrite Htoasts, Hlen; reflexivity|].
      exact (log_matches_grow Hgrow _ _ Hentries).
  - (* handleClearWaypoints *)
    destruct (createEmptyMission_view now h) as (m0 & h0 & Hrun & Hgrow & _ & Hv0).
    eexists _, h0. unfold handleClearWaypoints, bind. rewrite Hrun.
    split; [reflexivity|]. split; [exact Hgrow|].
    split; [exact (reach_empty _ _ _ _ Hrun)|].
    split; [exact (log_counted_grow Hgrow _ Hlog)|].
    unfold state_matches.
    cbn [App.mission App.addWaypointMode App.toasts App.missionLog].
    split; [rewrite (mission_path_read _ _ _ Hv0); reflexivity|].
    split; [exact Hmode|]. split; [cbn; rewrite Htoasts; reflexivity|].
    exact (log_matches_grow Hgrow _ _ Hentries).
  - (* handleSendWaypoints *)
    eexists _, h. split; [exact (handleSendWaypoints_run inp _ _ _ Hv)|].
    split; [reflexivity|]. cbn zeta. unfold state_matches, OldApp.handleSendWaypoints.
    rewrite Hlen.
    destruct (0 <? Z.of_nat (length (MissionView.waypoints v))) eqn:Hpos.
    + cbn [App.mission App.addWaypointMode App.toasts App.missionLog
           OldApp.waypoints OldApp.addWaypointMode OldApp.toasts OldApp.missionLog].
      split; [exact Hreach|]. split.
      * constructor; [|exact Hlog]. exists v. cbn. repeat split; trivial.
        apply Z.ltb_lt. exact Hpos.
      * split; [exact Hpath|]. split; [exact Hmode|].
        split; [rewrite Htoasts; reflexivity|].
        constructor; [|exact Hentries]. repeat split; trivial.
    + split; [exact Hreach|]. split; [exact Hlog|].
      split; [exact Hpath|]. split; [exact Hmode|]. split; [exact Htoasts|exact Hentries].
Qed.

(** ** Sequences of actions *)

Lemma App_run_planned actions : forall h s so,
  reachable h (App.mission s) ->
  Forall (entry_counted h) (App.missionLog s) ->
  state_matches h s so ->
  exists s' h',
    App_run actions s h = Some (s', h') /\
    h `prefix_of` h' /\
    reachable h' (App.mission s') /\
    Forall (entry_counted h') (App.missionLog s') /\
    state_matches h' s' (fold_left (fun s a => OldApp.step a s) actions so).
Proof.
  induction actions as [|a actions IH]; intros h s so Hreach Hlog Hmatch.
  - exists s, h. cbn. split; [reflexivity|]. split; [reflexivity|]. auto.
  - destruct (App_step_planned a _ _ _ Hreach Hlog Hmatch)
      as (s1 & h1 & Hstep & Hgrow1 & Hreach1 & Hlog1 & Hmatch1).
    destruct (IH _ _ _ Hreach1 Hlog1 Hmatch1)
      as (s' & h' & Hrun & Hgrow' & Hreach' & Hlog' & Hmatch').
    exists s', h'. cbn [App_run fold_left]. unfold bind. rewrite Hstep.
    split; [exact Hrun|]. split; [etrans; eassumption|]. auto.
Qed.

Lemma App_start_planned now actions h :
  exists s h',
    App_start now actions h = Some (s, h') /\
    reachable h' (App.mission s) /\
    Forall (entry_counted h') (App.missionLog s) /\
    state_matches h' s (OldApp.start actions).
Proof.
  destruct (createEmptyMission_view now h) as (m0 & h0 & Hrun & _ & _ & Hv0).
  destruct (App_run_planned actions h0
              {| App.mission := m0; App.addWaypointMode := false;
                 App.missionLog := []; App.toasts := [] |}
              {| OldApp.waypoints := []; OldApp.addWaypointMode := false;
                 OldApp.missionLog := []; OldApp.toasts := [] |})
    as (s & h' & Hrest & _ & Hreach & Hlog & Hmatch).
  - exact (reach_empty _ _ _ _ Hrun).
  - constructor.
  - unfold state_matches. cbn. rewrite (mission_path_read _ _ _ Hv0).
    repeat split. constructor.
  - exists s, h'. unfold App_start, bind. rewrite Hrun. auto.
Qed.

(** Whatever the user does, the mission the application holds is one of the
    missions obtained from [createEmptyMission()] by [addWaypointToMission]:
    no sequence of renders, mode changes, additions, clears and sends fails
    or leaves the state holding anything else. *)
Theorem App_mission_reachable (now : string) (actions : list action) (h : heap) :
  exists s h',
    App_start now actions h = Some (s, h') /\
    reachable h' (App.mission s).
Proof.
  destruct (App_start_planned now actions h) as (s & h' & Hrun & Hreach & _).
  eauto.
Qed.

(** Every entry of the mission log refers to a mission that, read when the
    actions are over, has as many waypoints as the entry recorded, and that
    number is never zero: later additions and clears do not change a mission
    that was sent. *)
Theorem App_log_counted (now : string) (actions : list action) (h : heap) :
  exists s h',
    App_start now actions h = Some (s, h') /\
    Forall (entry_counted h') (App.missionLog s).
Proof.
  destruct (App_start_planned now actions h) as (s & h' & Hrun & _ & Hlog & _).
  eauto.
Qed.

(** The application behaves as its predecessor did: after the same
    actions, the positions of the planned path, the add-waypoint mode, the
    toasts, and the log (entry by entry: id, timestamp, count, status,
    message and the positions of the logged mission) are those the
    array-of-positions state of the earlier [App] ends with. *)
Theorem App_refines_predecessor (now : string) (actions : list action) (h : heap) :
  exists s h',
    App_start now actions h = Some (s, h') /\
    state_matches h' s (OldApp.start actions).
Proof.
  destruct (App_start_planned now actions h) as (s & h' & Hrun & _ & _ & Hmatch).
  eauto.
Qed.

Example App_sample_run :
  observe (App_start t0
             [SetAddWaypointMode true;
              HandleAddWaypoint "2026-01-01T00:00:01.000Z" (15.4909, 73.8278)%float;
              HandleSendWaypoints {| date_now := "1767225602000";
                                     locale_time := "Jan 1, 2026, 12:00:02 AM";
                                     random1 := 0.9; random2 := 0.1 |};
              HandleClearWaypoints "2026-01-01T00:00:03.000Z"])
          (fun h s => Some (mission_path h (App.mission s),
                            App.toasts s,
                            (fun e => (MissionLogEntry.waypointCount e,
                                       MissionLogEntry.status e,
                                       mission_path h (MissionLogEntry.mission e)))
                              <$> App.missionLog s)) [] =
  Some (Some [],
        [toast_success "Waypoint 1 added";
         toast_success "1 waypoints sent to USV via Pixhawk";
         toast_info "Waypoints cleared"],
        [(1, Accepted, Some [(15.4909, 73.8278)%float])]).
Proof. vm_compute. reflexivity. Qed.

(** ** The mission log *)

Lemma App_step_log a s h s' h' :
  App_step a s h = Some (s', h') ->
  App.missionLog s `suffix_of` App.missionLog s'.
Proof.
  destruct a as [now|mode|now position|now|inp]; cbn [App_step].
  - unfold bind, ret. destruct (createEmptyMission now h) as [[m0 h0]|]; [|discriminate].
    intros [= <- <-]. reflexivity.
  - unfold ret. intros [= <- <-]. reflexivity.
  - unfold handleAddWaypoint, bind, ret.
    destruct (addWaypointToMission _ _ _ _ h) as [[m1 h1]|]; [|discriminate].
    destruct (waypoints_length _ h1) as [[n h2]|]; [|discriminate].
    intros [= <- <-]. reflexivity.
  - unfold handleClearWaypoints, bind, ret.
    destruct (createEmptyMission now h) as [[m0 h0]|]; [|discriminate].
    intros [= <- <-]. reflexivity.
  - unfold handleSendWaypoints, bind at 1.
    destruct (waypoints_length _ h) as [[n h1]|]; [|discriminate].
    destruct (0 <? n).
    + unfold bind at 1. destruct (waypoints_length _ h1) as [[count h2]|]; [|discriminate].
      unfold bind at 1.
      destruct (number_gt (random2 inp) 0.2).
      * unfold bind at 1. destruct (waypoints_length _ h2) as [[k h3]|]; [|discriminate].
        unfold bind at 1. destruct (waypoints_length _ h3) as [[k' h4]|]; [|discriminate].
        unfold ret at 1. unfold bind, ret.
        destruct (waypoints_length _ h4) as [[sent h5]|]; [|discriminate].
        intros [= <- <-]. eexists [_]. reflexivity.
      * unfold ret at 1. unfold bind, ret.
        destruct (waypoints_length _ h2) as [[sent h5]|]; [|discriminate].
        intros [= <- <-]. eexists [_]. reflexivity.
    + unfold ret. intros [= <- <-]. reflexivity.
Qed.

(** Entries are only ever added at the head of the mission log: whatever
    actions run, from whatever state, the log they started with is still
    there, in the same order, at the end of the log they leave. *)
Theorem App_log_only_grows
  (actions : list action) (s : App.state) (h : heap) (s' : App.state) (h' : heap) :
  App_run actions s h = Some (s', h') ->
  App.missionLog s `suffix_of` App.missionLog s'.
Proof.
  revert s h. induction actions as [|a actions IH]; intros s h.
  - cbn. unfold ret. intros [= <- <-]. reflexivity.
  - cbn [App_run]. unfold bind.
    destruct (App_step a s h) as [[s1 h1]|] eqn:Hstep; [|discriminate].
    intros Hrun. etrans; [exact (App_step_log _ _ _ _ _ Hstep)|].
    exact (IH _ _ Hrun).
Qed.

Lemma App_log_only_grows_witness :
  App_run sample_actions sample_state two_clicks_heap =
    Some (sample_state_after, sample_heap_after) /\
  App.missionLog sample_state `suffix_of` App.missionLog sample_state_after.
Proof.
  assert (Hrun : App_run sample_actions sample_state two_clicks_heap =
                 Some (sample_state_after, sample_heap_after))
    by (vm_compute; reflexivity).
  split; [exact Hrun|].
  exact (App_log_only_grows sample_actions sample_state two_clicks_heap
           sample_state_after sample_heap_after Hrun).
Defined.

(** Sending an empty mission does nothing: no log entry, no toast, no
    allocation. *)
Theorem handleSendWaypoints_empty
  (inp : send_inputs) (h : heap) (s : App.state) (v : MissionView.t) :
  read_mission h (App.mission s) = Some v ->
  MissionView.waypoints v = [] ->
  handleSendWaypoints inp s h = Some (s, h).
Proof.
  intros Hv Hempty. rewrite (handleSendWaypoints_run inp _ _ _ Hv), Hempty.
  reflexivity.
Qed.

Lemma handleSendWaypoints_empty_witness :
  (exists v, read_mission fresh_heap (App.mission fresh_state) = Some v /\
             MissionView.waypoints v = []) /\
  handleSendWaypoints sample_send fresh_state fresh_heap = Some (fresh_state, fresh_heap).
Proof.
  split; [eexists; split; reflexivity|].
  eapply (handleSendWaypoints_empty sample_send fresh_heap fresh_state); reflexivity.
Defined.

(** The status and the message of a log entry come from two separate calls
    of [Math.random()]: when the first draw is above 0.2 and the second is
    not, the entry logged for a non-empty mission has the status Accepted
    and the text of a rejection.  The entry holds the reference of the
    mission the state holds and the number of its waypoints. *)
Theorem handleSendWaypoints_two_draws
  (inp : send_inputs) (h : heap) (s : App.state) (v : MissionView.t) :
  read_mission h (App.mission s) = Some v ->
  MissionView.waypoints v <> [] ->
  number_gt (random1 inp) 0.2 = true ->
  number_gt (random2 inp) 0.2 = false ->
  exists s' e,
    handleSendWaypoints inp s h = Some (s', h) /\
    App.missionLog s' = e :: App.missionLog s /\
    MissionLogEntry.status e = Accepted /\
    MissionLogEntry.message e = rejected_message /\
    MissionLogEntry.mission e = App.mission s /\
    MissionLogEntry.waypointCount e = Z.of_nat (length (MissionView.waypoints v)).
Proof.
  intros Hv Hne H1 H2. rewrite (handleSendWaypoints_run inp _ _ _ Hv). cbn zeta.
  assert (Hpos : (0 <? Z.of_nat (length (MissionView.waypoints v))) = true).
  { apply Z.ltb_lt. destruct (MissionView.waypoints v); [contradiction|cbn; lia]. }
  rewrite Hpos, H1, H2. eexists _, _. split; [reflexivity|]. repeat split.
Qed.

Lemma handleSendWaypoints_two_draws_witness :
  (read_mission two_clicks_heap (App.mission sample_state) = Some two_clicks_view /\
   MissionView.waypoints two_clicks_view <> [] /\
   number_gt (random1 sample_send) 0.2 = true /\
   number_gt (random2 sample_send) 0.2 = false) /\
  exists s' e,
    handleSendWaypoints sample_send sample_state two_clicks_heap =
      Some (s', two_clicks_heap) /\
    App.missionLog s' = e :: App.missionLog sample_state /\
    MissionLogEntry.status e = Accepted /\
    MissionLogEntry.message e = rejected_message /\
    MissionLogEntry.mission e = App.mission sample_state /\
    MissionLogEntry.waypointCount e =
      Z.of_nat (length (MissionView.waypoints two_clicks_view)).
Proof.
  assert (Hne : MissionView.waypoints two_clicks_view <> []) by discriminate.
  split; [split; [reflexivity|split; [exact Hne|split; reflexivity]]|].
  apply (handleSendWaypoints_two_draws sample_send two_clicks_heap sample_state
           two_clicks_view); [reflexivity|exact Hne|reflexivity|reflexivity].
Defined.

(** ** Adding a waypoint *)

(** The toast of [handleAddWaypoint] announces the number that the marker
    of the new waypoint shows on the map ([seq + 1]), which is the number of
    waypoints of the new mission; the mode is switched off. *)
Theorem handleAddWaypoint_numbering
  (now : string) (position : position) (h : heap) (s : App.state) (v : MissionView.t) :
  read_mission h (App.mission s) = Some v ->
  exists s' h' v' wp,
    handleAddWaypoint now position s h = Some (s', h') /\
    read_mission h' (App.mission s') = Some v' /\
    last (MissionView.waypoints v') = Some wp /\
    (Waypoint.x wp, Waypoint.y wp) = position /\
    marker_number wp = Z.of_nat (length (MissionView.waypoints v')) /\
    last (App.toasts s') =
      Some (toast_success ("Waypoint " +:+ pretty (marker_number wp) +:+ " added")) /\
    App.addWaypointMode s' = false.
Proof.
  intros Hv.
  destruct (handleAddWaypoint_run now position _ _ _ Hv)
    as (m' & h' & Hrun & _ & _ & Hv').
  eexists _, h', _, _. split; [exact Hrun|]. split; [exact Hv'|].
  cbn [App.mission App.toasts App.addWaypointMode MissionView.waypoints].
  split; [apply last_snoc|].
  split; [destruct position; reflexivity|].
  split; [unfold marker_number; cbn; rewrite length_app; cbn; lia|].
  split; [rewrite last_snoc; reflexivity|reflexivity].
Qed.

Lemma handleAddWaypoint_numbering_witness :
  read_mission two_clicks_heap (App.mission sample_state) = Some two_clicks_view /\
  exists s' h' v' wp,
    handleAddWaypoint "2026-01-01T00:00:03.000Z" (15.51, 73.84)%float
      sample_state two_clicks_heap = Some (s', h') /\
    read_mission h' (App.mission s') = Some v' /\
    last (MissionView.waypoints v') = Some wp /\
    (Waypoint.x wp, Waypoint.y wp) = (15.51, 73.84)%float /\
    marker_number wp = Z.of_nat (length (MissionView.waypoints v')) /\
    last (App.toasts s') =
      Some (toast_success ("Waypoint " +:+ pretty (marker_number wp) +:+ " added")) /\
    App.addWaypointMode s' = false.
Proof.
  split; [reflexivity|].
  apply (handleAddWaypoint_numbering "2026-01-01T00:00:03.000Z" (15.51, 73.84)%float
           two_clicks_heap sample_state two_clicks_view).
  reflexivity.
Defined.

(** ** Clicking on the map *)

Lemma MapView_clicks_ignored clicks : forall s h,
  App.addWaypointMode s = false ->
  MapView_run ((fun c : add_call => ClickMap (call_now c) (call_lat c) (call_lon c))
                 <$> clicks) s h = Some (s, h).
Proof.
  induction clicks as [|c clicks IH]; intros s h Hoff; [reflexivity|].
  cbn [fmap list_fmap MapView_run]. unfold bind, MapView_step, MapView_action.
  rewrite Hoff. unfold ret at 1. apply IH. exact Hoff.
Qed.

(** One press of the button allows one waypoint: when the add-waypoint
    mode is on, the first click on the map appends its position to the
    planned path and switches the mode off, and every further click on the
    map is ignored. *)
Theorem MapView_one_waypoint_per_activation
  (first : add_call) (more : list add_call) (h : heap) (s : App.state)
  (v : MissionView.t) :
  read_mission h (App.mission s) = Some v ->
  App.addWaypointMode s = true ->
  exists s' h',
    MapView_run ((fun c : add_call => ClickMap (call_now c) (call_lat c) (call_lon c))
                   <$> (first :: more)) s h = Some (s', h') /\
    mission_path h' (App.mission s') =
      Some (path_of (MissionView.waypoints v) ++ [(call_lat first, call_lon first)]) /\
    App.addWaypointMode s' = false.
Proof.
  intros Hv Hon.
  destruct (handleAddWaypoint_run (call_now first) (call_lat first, call_lon first)
              _ _ _ Hv) as (m' & h' & Hrun & _ & _ & Hv').
  eexists _, h'. cbn [fmap list_fmap MapView_run].
  unfold bind at 1, MapView_step, MapView_action. rewrite Hon. cbn [App_step].
  rewrite Hrun. rewrite MapView_clicks_ignored by reflexivity.
  split; [reflexivity|]. cbn [App.mission App.addWaypointMode].
  split; [|reflexivity].
  rewrite (mission_path_read _ _ _ Hv'). cbn [MissionView.waypoints fst snd].
  unfold path_of. rewrite fmap_app. reflexivity.
Qed.

Lemma MapView_one_waypoint_per_activation_witness :
  (read_mission two_clicks_heap (App.mission sample_state) = Some two_clicks_view /\
   App.addWaypointMode sample_state = true) /\
  exists s' h',
    MapView_run ((fun c : add_call => ClickMap (call_now c) (call_lat c) (call_lon c))
                   <$> [mandovi; goa; panaji]) sample_state two_clicks_heap =
      Some (s', h') /\
    mission_path h' (App.mission s') =
      Some (path_of (MissionView.waypoints two_clicks_view)
            ++ [(call_lat mandovi, call_lon mandovi)]) /\
    App.addWaypointMode s' = false.
Proof.
  split; [split; reflexivity|].
  apply (MapView_one_waypoint_per_activation mandovi [goa; panaji] two_clicks_heap
           sample_state two_clicks_view); reflexivity.
Defined.

(** * Sliding windows *)

Lemma Array_slice_negative {A : Type} (n : nat) (l : list A) :
  (0 < n)%nat -> Array_slice (- Z.of_nat n) l = drop (length l - n) l.
Proof.
  intros Hn. unfold Array_slice.
  destruct (- Z.of_nat n <? 0) eqn:Hneg; [|apply Z.ltb_ge in Hneg; lia].
  f_equal. lia.
Qed.

Lemma Array_slice_length {A : Type} (n : nat) (l : list A) :
  (0 < n)%nat -> length (Array_slice (- Z.of_nat n) l) = Nat.min (length l) n.
Proof. intros Hn. rewrite Array_slice_negative, length_drop by exact Hn. lia. Qed.

Lemma Array_slice_short {A : Type} (n : nat) (l : list A) :
  (0 < n)%nat -> (length l <= n)%nat -> Array_slice (- Z.of_nat n) l = l.
Proof.
  intros Hn Hl. rewrite Array_slice_negative by exact Hn.
  replace (length l - n)%nat with 0%nat by lia. reflexivity.
Qed.

(** Appending to the last [n] elements and keeping the last [n + 1] of the
    appended array are the same thing. *)
Lemma Array_slice_snoc {A : Type} (n : nat) (l : list A) (x : A) :
  (0 < n)%nat ->
  Array_slice (- Z.of_nat n) l ++ [x] = Array_slice (- Z.of_nat (S n)) (l ++ [x]).
Proof.
  intros Hn. rewrite !Array_slice_negative by lia.
  rewrite length_app. cbn [length].
  replace (length l + 1 - S n)%nat with (length l - n)%nat by lia.
  rewrite drop_app_le by lia. reflexivity.
Qed.

(** Cutting an array down to its last [n] elements before appending more
    does not change which [n] elements are last in the end. *)
Lemma Array_slice_app {A : Type} (n : nat) (l more : list A) :
  (0 < n)%nat ->
  Array_slice (- Z.of_nat n) (Array_slice (- Z.of_nat n) l ++ more) =
  Array_slice (- Z.of_nat n) (l ++ more).
Proof.
  intros Hn. destruct (Nat.le_gt_cases (length l) n) as [Hshort|Hlong].
  - rewrite (Array_slice_short n l) by assumption. reflexivity.
  - rewrite !Array_slice_negative by exact Hn.
    rewrite !length_app, length_drop.
    replace (length l - (length l - n) + length more - n)%nat with (length more) by lia.
    replace (length l + length more - n)%nat
      with ((length l - n) + length more)%nat by lia.
    rewrite <- drop_drop, (drop_app_le l) by lia. reflexivity.
Qed.

Lemma window_fold {A B : Type} (n : nat) (f : B -> A) (items : list B) :
  (0 < n)%nat -> forall l,
  (length l <= n)%nat ->
  fold_left (fun prev b => Array_slice (- Z.of_nat n) (prev ++ [f b])) items l =
  Array_slice (- Z.of_nat n) (l ++ (f <$> items)).
Proof.
  intros Hn. induction items as [|b items IH]; intros l Hl.
  - cbn. rewrite app_nil_r, Array_slice_short by assumption. reflexivity.
  - cbn [fold_left fmap list_fmap]. rewrite IH.
    + rewrite Array_slice_app by exact Hn. rewrite <- app_assoc. reflexivity.
    + rewrite Array_slice_length by exact Hn. lia.
Qed.

Lemma fold_left_ext {A B : Type} (f g : A -> B -> A) (items : list B) :
  (forall a b, f a b = g a b) -> forall a, fold_left f items a = fold_left g items a.
Proof.
  intros Hfg. induction items as [|b items IH]; intros a; [reflexivity|].
  cbn. rewrite Hfg. apply IH.
Qed.

(** The chart shows the last 20 points of everything it was given: after
    any number of telemetry readings, the chart data is the initial data
    followed by one point per reading, cut down to its last 20 elements (the
    initial data has 10 points; 20 or fewer is what is needed). *)
Theorem chart_keeps_last_20
  (readings : list (string * SensorData.t)) (chartData : list ChartDataPoint.t) :
  (length chartData <= 20)%nat ->
  chart_updates readings chartData =
    Array_slice (-20) (chartData ++ ((fun r => newPoint (fst r) (snd r)) <$> readings)) /\
  length (chart_updates readings chartData) =
    Nat.min (length chartData + length readings) 20.
Proof.
  intros Hl.
  assert (Heq : chart_updates readings chartData =
                Array_slice (- Z.of_nat 20)
                  (chartData ++ ((fun r => newPoint (fst r) (snd r)) <$> readings))).
  { rewrite <- (window_fold 20 (fun r => newPoint (fst r) (snd r))) by (lia || exact Hl).
    unfold chart_updates. apply fold_left_ext. intros prev r. unfold chart_update.
    exact (Array_slice_snoc 19 prev _ ltac:(lia)). }
  split; [exact Heq|].
  rewrite Heq, Array_slice_length, length_app, length_fmap by lia. reflexivity.
Qed.

Lemma chart_keeps_last_20_witness :
  (length ([] : list ChartDataPoint.t) <= 20)%nat /\
  chart_updates [("12:00:00 AM", clean_water); ("12:00:02 AM", murky_water)] [] =
    Array_slice (-20)
      ([] ++ ((fun r => newPoint (fst r) (snd r))
                <$> [("12:00:00 AM", clean_water); ("12:00:02 AM", murky_water)])) /\
  length (chart_updates [("12:00:00 AM", clean_water); ("12:00:02 AM", murky_water)] []) =
    Nat.min (length ([] : list ChartDataPoint.t) + 2) 20.
Proof.
  assert (Hl : (length ([] : list ChartDataPoint.t) <= 20)%nat) by (cbn; lia).
  split; [exact Hl|].
  exact (chart_keeps_last_20
           [("12:00:00 AM", clean_water); ("12:00:02 AM", murky_water)] [] Hl).
Defined.

(** The trail is the last 300 positions the bridge reported: starting from
    the empty trail, after any number of position updates the trail is the
    list of all reported positions cut down to its last 300 elements. *)
Theorem trail_keeps_last_300 (fixes : list position) :
  trail_updates fixes [] = Array_slice (-300) fixes /\
  length (trail_updates fixes []) = Nat.min (length fixes) 300.
Proof.
  assert (Heq : trail_updates fixes [] = Array_slice (- Z.of_nat 300) fixes).
  { unfold trail_updates, trail_update.
    rewrite (fold_left_ext _
               (fun prev p => Array_slice (- Z.of_nat 300) (prev ++ [id p])))
      by (intros prev [lat lon]; reflexivity).
    rewrite (window_fold 300 id) by (cbn; lia).
    rewrite list_fmap_id. reflexivity. }
  split; [exact Heq|].
  rewrite Heq, Array_slice_length by lia. reflexivity.
Qed.

(** The trail of the earlier [App] is the last 50 positions: after any
    number of moves, it is the initial trail followed by the new positions,
    cut down to its last 50 elements (the initial trail has one position; 50
    or fewer is what is needed). *)
Theorem old_trail_keeps_last_50 (fixes trail : list position) :
  (length trail <= 50)%nat ->
  old_trail_updates fixes trail = Array_slice (-50) (trail ++ fixes) /\
  length (old_trail_updates fixes trail) = Nat.min (length trail + length fixes) 50.
Proof.
  intros Hl.
  assert (Heq : old_trail_updates fixes trail =
                Array_slice (- Z.of_nat 50) (trail ++ fixes)).
  { unfold old_trail_updates, old_trail_update.
    rewrite (fold_left_ext _
               (fun prev p => Array_slice (- Z.of_nat 50) (prev ++ [id p])))
      by (intros prev p; exact (Array_slice_snoc 49 prev p ltac:(lia))).
    rewrite (window_fold 50 id) by (lia || exact Hl).
    rewrite list_fmap_id. reflexivity. }
  split; [exact Heq|].
  rewrite Heq, Array_slice_length, length_app by lia. reflexivity.
Qed.

Lemma old_trail_keeps_last_50_witness :
  (length [(15.4909, 73.8278)%float] <= 50)%nat /\
  old_trail_updates [(15.5, 73.83)%float] [(15.4909, 73.8278)%float] =
    Array_slice (-50) ([(15.4909, 73.8278)%float] ++ [(15.5, 73.83)%float]) /\
  length (old_trail_updates [(15.5, 73.83)%float] [(15.4909, 73.8278)%float]) =
    Nat.min (length [(15.4909, 73.8278)%float] + length [(15.5, 73.83)%float]) 50.
Proof.
  assert (Hl : (length [(15.4909, 73.8278)%float] <= 50)%nat) by (cbn; lia).
  split; [exact Hl|].
  exact (old_trail_keeps_last_50 [(15.5, 73.83)%float] [(15.4909, 73.8278)%float] Hl).
Defined.

(** * Water quality *)

(** The score, a sum of the numbers 1 and 0.5 in floating point, decides as
    the exact count of half points does. *)
Lemma calculateWaterQuality_score (data : SensorData.t) :
  calculateWaterQuality data =
    if 7 <=? total_half_points data then good
    else if 4 <=? total_half_points data then moderate
    else poor.
Proof.
  unfold calculateWaterQuality, total_half_points,
    ph_band, temperature_band, tds_band, turbidity_band.
  destruct data as [ph temperature tds turbidity].
  cbn [SensorData.ph SensorData.temperature SensorData.tds SensorData.turbidity].
  destruct (number_ge ph 6.5 && number_le ph 8.5),
           (number_ge ph 6.0 && number_le ph 9.0),
           (number_ge temperature 20 && number_le temperature 28),
           (number_ge temperature 15 && number_le temperature 32),
           (number_lt tds 500), (number_lt tds 600),
           (number_lt turbidity 5), (number_lt turbidity 10);
    reflexivity.
Qed.

(** The status is "good" exactly when at most one reading misses its ideal
    band and that one is still acceptable (seven or eight half points),
    "moderate" from four to six half points, and "poor" below four. *)
Theorem calculateWaterQuality_by_bands (data : SensorData.t) :
  (calculateWaterQuality data = good <-> 7 <= total_half_points data) /\
  (calculateWaterQuality data = moderate <->
     4 <= total_half_points data /\ total_half_points data < 7) /\
  (calculateWaterQuality data = poor <-> total_half_points data < 4).
Proof.
  rewrite calculateWaterQuality_score.
  destruct (7 <=? total_half_points data) eqn:H7;
    destruct (4 <=? total_half_points data) eqn:H4;
    rewrite ?Z.leb_le, ?Z.leb_gt in H7, H4;
    repeat split; intros; try discriminate; try lia.
Qed.

(** ** Readings that are not numbers *)

Lemma SFeqb_irrefl_nan (s : SpecFloat.spec_float) :
  SpecFloat.SFeqb s s = false -> s = SpecFloat.S754_nan.
Proof.
  unfold SpecFloat.SFeqb. destruct s as [b|b| |b m e]; cbn; trivial.
  - discriminate.
  - destruct b; discriminate.
  - destruct b; rewrite Z.compare_refl, Pos.compare_cont_refl; discriminate.
Qed.

Lemma is_nan_Prim2SF (a : float) :
  is_nan a = true -> FloatOps.Prim2SF a = SpecFloat.S754_nan.
Proof.
  unfold is_nan. rewrite negb_true_iff, FloatAxioms.eqb_spec.
  apply SFeqb_irrefl_nan.
Qed.

(** Every comparison with NaN is false. *)
Lemma number_ge_nan (a c : float) : is_nan a = true -> number_ge a c = false.
Proof.
  intros Hnan. unfold number_ge.
  rewrite FloatAxioms.leb_spec, (is_nan_Prim2SF _ Hnan).
  unfold SpecFloat.SFleb. destruct (FloatOps.Prim2SF c); reflexivity.
Qed.

Lemma number_lt_nan (a c : float) : is_nan a = true -> number_lt a c = false.
Proof.
  intros Hnan. unfold number_lt.
  rewrite FloatAxioms.ltb_spec, (is_nan_Prim2SF _ Hnan). reflexivity.
Qed.

Lemma half_points_le (b : band) : half_points b <= 2.
Proof. destruct b; cbn; lia. Qed.

(** A reading that is NaN earns nothing: with one NaN among the four
    readings the status is never "good", and with four it is "poor". *)
Theorem calculateWaterQuality_nan (data : SensorData.t) :
  (is_nan (SensorData.ph data) = true \/
   is_nan (SensorData.temperature data) = true \/
   is_nan (SensorData.tds data) = true \/
   is_nan (SensorData.turbidity data) = true ->
   calculateWaterQuality data <> good) /\
  (is_nan (SensorData.ph data) = true ->
   is_nan (SensorData.temperature data) = true ->
   is_nan (SensorData.tds data) = true ->
   is_nan (SensorData.turbidity data) = true ->
   calculateWaterQuality data = poor).
Proof.
  assert (Hph : is_nan (SensorData.ph data) = true -> ph_band data = outside)
    by (intros Hn; unfold ph_band; rewrite !(number_ge_nan _ _ Hn); reflexivity).
  assert (Htemp : is_nan (SensorData.temperature data) = true ->
                  temperature_band data = outside)
    by (intros Hn; unfold temperature_band; rewrite !(number_ge_nan _ _ Hn); reflexivity).
  assert (Htds : is_nan (SensorData.tds data) = true -> tds_band data = outside)
    by (intros Hn; unfold tds_band; rewrite !(number_lt_nan _ _ Hn); reflexivity).
  assert (Hturb : is_nan (SensorData.turbidity data) = true ->
                  turbidity_band data = outside)
    by (intros Hn; unfold turbidity_band; rewrite !(number_lt_nan _ _ Hn); reflexivity).
  pose proof (half_points_le (ph_band data)) as B1.
  pose proof (half_points_le (temperature_band data)) as B2.
  pose proof (half_points_le (tds_band data)) as B3.
  pose proof (half_points_le (turbidity_band data)) as B4.
  rewrite calculateWaterQuality_score. unfold total_half_points. split.
  - intros Hnan.
    destruct (7 <=? _) eqn:H7; [|destruct (4 <=? _); discriminate].
    apply Z.leb_le in H7.
    destruct Hnan as [Hn|[Hn|[Hn|Hn]]];
      [rewrite (Hph Hn) in H7|rewrite (Htemp Hn) in H7
      |rewrite (Htds Hn) in H7|rewrite (Hturb Hn) in H7];
      cbn [half_points] in H7; lia.
  - intros H1 H2 H3 H4. rewrite (Hph H1), (Htemp H2), (Htds H3), (Hturb H4).
    reflexivity.
Qed.

Lemma calculateWaterQuality_nan_witness :
  is_nan (SensorData.turbidity murky_water) = true /\
  calculateWaterQuality murky_water <> good.
Proof.
  assert (Hnan : is_nan (SensorData.turbidity murky_water) = true) by reflexivity.
  split; [exact Hnan|].
  apply (proj1 (calculateWaterQuality_nan murky_water)). auto.
Defined.

Example clean_water_is_good : calculateWaterQuality clean_water = good.
Proof. reflexivity. Qed.
